(** * Two-point Dixon fat/water separation: a model of [FW-Suppression.py]

    The Python program reads two DICOM slices, rescales them to 8 bits,
    separates water and fat by the two-point Dixon sum and difference,
    equalises the histograms and displays the result.  This file embeds the
    program function by function and states its properties.

    Conventions.
    - A numpy array is a [shape] and a row-major buffer of samples.
    - Samples of the unsigned integer dtypes are [Z]; [float64] samples are
      Rocq's primitive binary64 floats, so every floating-point operation
      below is the IEEE operation numpy performs.
    - The single-precision arithmetic inside [cv2.equalizeHist] is written
      out on mantissas and exponents and tested against the Standard
      Library's IEEE specification at binary32.
    - Exceptions and the observable effects of the program (what it prints,
      which whole-array passes it has completed, what it displays) are
      threaded through the monad [M].

    Plan.  The definitions come first: the monad, arrays, float64, the
    OpenCV and numpy routines the program calls, then the functions of the
    program.  The properties follow: the separator, the normalisation
    (constant images, 8-bit images, outputs of the separator, integer
    images of any width, the extreme quotients of any image), the
    equalisation and the enhancer, the end-to-end example, the loader, the
    display and the whole program. *)

From Stdlib Require Import ZArith List Bool Lia String QArith Floats Uint63.
Import ListNotations.

Local Open Scope Z_scope.

(* ================================================================== *)
(** ** Exceptions, events and the monad of the program                 *)
(* ================================================================== *)

(** The Python exceptions the program can meet.  [cv2_error] is the single
    exception class OpenCV raises ([cv2.error]), whatever its status code. *)
Inductive exn : Type :=
| FileNotFoundError
| InvalidDicomError
| ValueError
| TypeError
| cv2_error
| OtherError (name : string).

(** What an observer of a run can see, in order: a line printed on standard
    output, a whole-array pass of a library routine over [n] samples that
    ran to completion, and the final figure with its number of panels. *)
Inductive event : Type :=
| printed (line : string)
| pass (routine : string) (n : nat)
| shown (panels : nat).

Definition M (A : Type) : Type := (list event * (exn + A))%type.

Definition ret {A} (a : A) : M A := ([], inr a).
Definition raise {A} (e : exn) : M A := ([], inl e).
Definition tell (ev : event) : M unit := ([ev], inr tt).

Definition bind {A B} (m : M A) (k : A -> M B) : M B :=
  match m with
  | (t, inl e) => (t, inl e)
  | (t, inr a) => let (t', r) := k a in (t ++ t', r)
  end.

Declare Scope prog_scope.
Delimit Scope prog_scope with prog.
Notation "x <- m ;; k" := (bind m (fun x => k))
  (at level 61, m at next level, right associativity) : prog_scope.
Notation "m ;;; k" := (bind m (fun _ => k))
  (at level 61, right associativity) : prog_scope.
Notation "' p <- m ;; k" := (bind m (fun x => let p := x in k))
  (at level 61, p pattern, m at next level, right associativity) : prog_scope.
Local Open Scope prog_scope.

Definition trace {A} (m : M A) : list event := fst m.
Definition outcome {A} (m : M A) : exn + A := snd m.

(* ================================================================== *)
(** ** numpy arrays                                                    *)
(* ================================================================== *)

Record ndarray (A : Type) : Type := mk_ndarray {
  shape : nat * nat;          (* (rows, columns) *)
  data  : list A              (* row-major *)
}.
Arguments mk_ndarray {A} _ _.
Arguments shape {A} _.
Arguments data {A} _.

Definition size {A} (a : ndarray A) : nat := (fst (shape a) * snd (shape a))%nat.

(** The buffer has exactly one sample per position. *)
Definition well_shaped {A} (a : ndarray A) : Prop := List.length (data a) = size a.

(** The sample at row [r], column [c]. *)
Definition pixel {A} (a : ndarray A) (r c : nat) : option A :=
  if (r <? fst (shape a))%nat && (c <? snd (shape a))%nat
  then nth_error (data a) (r * snd (shape a) + c)
  else None.

(** [np.full(shape, v)]. *)
Definition full {A} (sh : nat * nat) (v : A) : ndarray A :=
  mk_ndarray sh (repeat v (fst sh * snd sh)).

(** Elementwise operations keep the shape of their first operand. *)
Definition amap {A B} (f : A -> B) (a : ndarray A) : ndarray B :=
  mk_ndarray (shape a) (map f (data a)).

Fixpoint zip_with {A B C} (f : A -> B -> C) (l : list A) (l' : list B) : list C :=
  match l, l' with
  | x :: t, y :: t' => f x y :: zip_with f t t'
  | _, _ => []
  end.

Definition amap2 {A B C} (f : A -> B -> C) (a : ndarray A) (b : ndarray B) : ndarray C :=
  mk_ndarray (shape a) (zip_with f (data a) (data b)).

Definition shape_eqb (s t : nat * nat) : bool :=
  (fst s =? fst t)%nat && (snd s =? snd t)%nat.

(** 8-bit unsigned samples. *)
Definition is_u8 (v : Z) : Prop := 0 <= v <= 255.

Definition u8_image (a : ndarray Z) : Prop :=
  well_shaped a /\ Forall is_u8 (data a).

(* ================================================================== *)
(** ** float64                                                         *)
(* ================================================================== *)

(** The binary64 float of a small non-negative integer (exact below 2^53). *)
Definition of_Z (z : Z) : float := PrimFloat.of_uint63 (Uint63.of_Z z).

(** The rational a finite float denotes; [None] for NaN and infinities. *)
Definition F2Q (f : float) : option Q :=
  match Prim2SF f with
  | S754_zero _ => Some 0%Q
  | S754_finite s m e =>
      Some ((if s then - inject_Z (Zpos m) else inject_Z (Zpos m)) * Qpower 2 e)%Q
  | S754_infinity _ | S754_nan => None
  end.

(** [f] denotes exactly the rational [q]. *)
Definition denotes (f : float) (q : Q) : Prop :=
  match F2Q f with Some q' => (q' == q)%Q | None => False end.

Definition denotesb (f : float) (q : Q) : bool :=
  match F2Q f with Some q' => Qeq_bool q' q | None => false end.

(* ================================================================== *)
(** ** OpenCV arithmetic on 8-bit images                               *)
(* ================================================================== *)

(** [cv::saturate_cast<uchar>]: results are clipped to the 8-bit range. *)
Definition saturate_u8 (z : Z) : Z := Z.max 0 (Z.min 255 z).

(** [cv2.add] and [cv2.subtract] on two 8-bit single-channel arrays: the
    sizes are compared first and a mismatch raises [cv2.error] before any
    sample is read; otherwise the per-element sum (difference) saturates.
    A result without samples has no buffer, and the Python binding hands
    such a result back as [None]. *)
Definition cv2_add (src1 src2 : ndarray Z) : M (option (ndarray Z)) :=
  if shape_eqb (shape src1) (shape src2) then
    tell (pass "cv2.add" (size src1)) ;;;
    match data src1 with
    | [] => ret None
    | _ :: _ => ret (Some (amap2 (fun x y => saturate_u8 (x + y)) src1 src2))
    end
  else raise cv2_error.

Definition cv2_subtract (src1 src2 : ndarray Z) : M (option (ndarray Z)) :=
  if shape_eqb (shape src1) (shape src2) then
    tell (pass "cv2.subtract" (size src1)) ;;;
    match data src1 with
    | [] => ret None
    | _ :: _ => ret (Some (amap2 (fun x y => saturate_u8 (x - y)) src1 src2))
    end
  else raise cv2_error.

(** [a / 2] on an integer array: numpy's true division, in float64.  On
    [None] the division raises [TypeError]. *)
Definition half (v : Z) : float := PrimFloat.div (of_Z v) (of_Z 2).

Definition halve (a : option (ndarray Z)) : M (ndarray float) :=
  match a with
  | None => raise TypeError
  | Some a => tell (pass "true_divide" (size a)) ;;; ret (amap half a)
  end.

(* ================================================================== *)
(** ** The separator                                                   *)
(* ================================================================== *)

(** [dixon_algorithm(in_phase_image, out_phase_image)].  Both call sites of
    the program pass 8-bit arrays (the results of [min_max_normalization]
    and their Gaussian blurs). *)
Definition dixon_algorithm (in_phase_image out_phase_image : ndarray Z)
  : M (ndarray float * ndarray float) :=
  s <- cv2_add in_phase_image out_phase_image ;;
  water_image <- halve s ;;
  d <- cv2_subtract in_phase_image out_phase_image ;;
  fat_image <- halve d ;;
  ret (water_image, fat_image).

(** The separation as the specification words it, for comparison with the
    code: at every position water is half the plain sum and fat half the
    plain difference, with no clamping. *)
Definition unclamped_separation (a b : ndarray Z) : Prop :=
  exists w f,
    outcome (dixon_algorithm a b) = inr (w, f) /\
    forall r c x y,
      pixel a r c = Some x -> pixel b r c = Some y ->
      exists wv fv,
        pixel w r c = Some wv /\ pixel f r c = Some fv /\
        denotes wv ((x + y) # 2) /\ denotes fv ((x - y) # 2).

(** No sample pair of [a], [b] makes the 8-bit sum or difference clip. *)
Definition no_clamping (a b : ndarray Z) : Prop :=
  forall r c x y,
    pixel a r c = Some x -> pixel b r c = Some y -> x + y <= 255 /\ y <= x.

(** The 256 byte values, in increasing order. *)
Definition bins : list Z := map Z.of_nat (seq 0 256).

(** Float64 reconstruction of a sample pair from its halved sum and
    difference, checked on every pair of bytes that does not clip. *)
Definition reconstructs (x y : Z) : bool :=
  if (x + y <=? 255) && (y <=? x) then
    denotesb (PrimFloat.add (half (x + y)) (half (x - y))) (x # 1) &&
    denotesb (PrimFloat.sub (half (x + y)) (half (x - y))) (y # 1)
  else true.

(* ================================================================== *)
(** ** numpy dtypes and reductions                                     *)
(* ================================================================== *)

(** What [min_max_normalization] needs of the dtype of its argument: the
    subtraction of the dtype, its order, its NaN test and the conversion to
    float64 that true division applies to both operands. *)
Record dtype (A : Type) : Type := mk_dtype {
  dt_sub   : A -> A -> A;
  dt_le    : A -> A -> bool;
  dt_isnan : A -> bool;
  dt_float : A -> float
}.
Arguments dt_sub {A} _ _ _.
Arguments dt_le {A} _ _ _.
Arguments dt_isnan {A} _ _.
Arguments dt_float {A} _ _.

(** Unsigned integers of [w] bits (at most 62): subtraction wraps around. *)
Definition uint (w : Z) : dtype Z :=
  {| dt_sub := fun a b => (a - b) mod 2 ^ w;
     dt_le := Z.leb;
     dt_isnan := fun _ => false;
     dt_float := of_Z |}.

Definition uint8 : dtype Z := uint 8.
Definition uint16 : dtype Z := uint 16.

Definition float64 : dtype float :=
  {| dt_sub := PrimFloat.sub;
     dt_le := PrimFloat.leb;
     dt_isnan := PrimFloat.is_nan;
     dt_float := fun x => x |}.

(** The dtypes the program meets: unsigned integers and float64. *)
Inductive known_dtype : forall A, dtype A -> Prop :=
| known_uint (w : Z) : known_dtype Z (uint w)
| known_float64 : known_dtype float float64.

(** [np.minimum] and [np.maximum]: a NaN operand wins. *)
Definition minimum {A} (D : dtype A) (a b : A) : A :=
  if dt_le D a b || dt_isnan D a then a else b.

Definition maximum {A} (D : dtype A) (a b : A) : A :=
  if dt_le D b a || dt_isnan D a then a else b.

(** [np.min] and [np.max] over the whole array; an empty array has no
    minimum and numpy raises [ValueError]. *)
Definition np_min {A} (D : dtype A) (a : ndarray A) : M A :=
  match data a with
  | [] => raise ValueError
  | x :: t => tell (pass "np.min" (size a)) ;;; ret (fold_left (minimum D) t x)
  end.

Definition np_max {A} (D : dtype A) (a : ndarray A) : M A :=
  match data a with
  | [] => raise ValueError
  | x :: t => tell (pass "np.max" (size a)) ;;; ret (fold_left (maximum D) t x)
  end.

(** [(image - lo) / d]: the subtraction is the dtype's, the quotient is
    float64 (0/0 is NaN, no exception). *)
Definition rescale {A} (D : dtype A) (image : ndarray A) (lo : A) (d : A)
  : M (ndarray float) :=
  tell (pass "subtract" (size image)) ;;;
  tell (pass "true_divide" (size image)) ;;;
  ret (amap (fun v => PrimFloat.div (dt_float D (dt_sub D v lo)) (dt_float D d)) image).

(** One sample of [np.interp(x, (x0, x1), (y0, y1))], following numpy's
    compiled loop for two break points: NaN passes through, samples outside
    [x0, x1] take the end values, a sample equal to a break point takes its
    value, the others are interpolated with the precomputed slope. *)
Definition interp1 (x0 x1 y0 y1 : float) (x : float) : float :=
  if PrimFloat.is_nan x then x
  else if PrimFloat.ltb x1 x then y1
  else if PrimFloat.ltb x x0 then y0
  else if PrimFloat.leb x1 x then y1
  else if PrimFloat.eqb x0 x then y0
  else
    let slope := PrimFloat.div (PrimFloat.sub y1 y0) (PrimFloat.sub x1 x0) in
    let r := PrimFloat.add (PrimFloat.mul slope (PrimFloat.sub x x0)) y0 in
    if PrimFloat.is_nan r then
      let r' := PrimFloat.add (PrimFloat.mul slope (PrimFloat.sub x x1)) y1 in
      if PrimFloat.is_nan r' && PrimFloat.eqb y0 y1 then y0 else r'
    else r.

Definition np_interp (x : ndarray float) (xp : float * float) (fp : float * float)
  : M (ndarray float) :=
  tell (pass "np.interp" (size x)) ;;;
  ret (amap (interp1 (fst xp) (snd xp) (fst fp) (snd fp)) x).

(** The integer part of a finite float (rounding toward zero). *)
Definition truncate (f : float) : option Z :=
  match Prim2SF f with
  | S754_zero _ => Some 0
  | S754_finite s m e =>
      let a := match e with
               | Z0 => Zpos m
               | Zpos p => Zpos m * 2 ^ Zpos p
               | Zneg p => Zpos m / 2 ^ Zpos p
               end in
      Some (if s then - a else a)
  | S754_infinity _ | S754_nan => None
  end.

(** The float64 quotient of two integers, as the normalisation forms it. *)
Definition quotient (k d : Z) : float := PrimFloat.div (of_Z k) (of_Z d).

(** What the normalisation does to a sample that lies [k] above the minimum
    of an image of range [d] (before the final reduction to 8 bits): the
    quotient is interpolated between the quotients of the two extremes and
    then truncated. *)
Definition normalized_level (k d : Z) : option Z :=
  truncate (interp1 (quotient 0 d) (quotient d d) (of_Z 0) (of_Z 255) (quotient k d)).

(** [(v - min) / (max - min) * 255] as numpy computes it in float64 for a
    sample that lies [k] above the minimum of an image of range [d], with
    its fraction dropped: the quotient is rounded to float64, so is its
    product with 255, and the cast truncates. *)
Definition scaled_level (k d : Z) : option Z :=
  truncate (PrimFloat.mul (of_Z 255) (quotient k d)).







(** Where a float64 lies with respect to zero.  The two extreme quotients
    of a normalisation fall on different sides whenever no quotient is NaN. *)
Inductive sign_class : Type := not_a_number | at_most_zero | above_zero.

Definition classify (X : spec_float) : sign_class :=
  match X with
  | S754_nan => not_a_number
  | S754_zero _ => at_most_zero
  | S754_infinity s | S754_finite s _ _ => if s then at_most_zero else above_zero
  end.

Definition class_of (x : float) : sign_class := classify (Prim2SF x).

(** The float64 facts the normalisation of an 8-bit image rests on, for one
    pair [0 <= k <= d], [1 <= d]: the quotient is a number, it is ordered
    strictly between (or equal to) the quotients of the extremes as [k] is,
    and its level is the integer part of [255 * k / d]. *)
Definition level_ok (d k : Z) : bool :=
  if (1 <=? d) && (k <=? d) then
    negb (PrimFloat.is_nan (quotient k d)) &&
    PrimFloat.leb (quotient 0 d) (quotient k d) &&
    (if 1 <=? k then negb (PrimFloat.leb (quotient k d) (quotient 0 d)) else true) &&
    PrimFloat.leb (quotient k d) (quotient d d) &&
    (if k <? d then negb (PrimFloat.leb (quotient d d) (quotient k d)) else true) &&
    match normalized_level k d with
    | Some z => z =? 255 * k / d
    | None => false
    end
  else true.

(** The float64 facts by which the normalisation of a halved 8-bit image
    (an output of the separator) follows that of the image itself: halves
    are ordered as the bytes are, their differences are the halves of the
    differences, and their quotients are the quotients of the bytes. *)
Definition halves_ordered (a b : Z) : bool :=
  Bool.eqb (PrimFloat.leb (half a) (half b)) (a <=? b) &&
  negb (PrimFloat.is_nan (half a)).

Definition halves_subtract (a b : Z) : bool :=
  if b <=? a
  then PrimFloat.Leibniz.eqb (PrimFloat.sub (half a) (half b)) (half (a - b))
  else true.

Definition halves_divide (d k : Z) : bool :=
  if k <=? d
  then PrimFloat.Leibniz.eqb (PrimFloat.div (half k) (half d)) (quotient k d)
  else true.

(** All samples of the image are equal (max == min). *)
Definition constant_image {A} (a : ndarray A) : Prop :=
  exists v, Forall (eq v) (data a).


(* ================================================================== *)
(** ** binary32 arithmetic of [cv2.equalizeHist]                       *)
(* ================================================================== *)

(** OpenCV computes the equalisation table in single precision.  The values
    met there are non-negative and far from the limits of the exponent
    range, so a binary32 number is a mantissa and an exponent, and each
    operation rounds its exact result to 24 significant bits, ties to
    even. *)
Record f32 : Type := mk_f32 { mant : Z; expo : Z }.

(** [n / 2^k] rounded to the nearest integer, ties to even. *)
Definition rne_shr (n k : Z) : Z :=
  let q := n / 2 ^ k in
  let r := n mod 2 ^ k in
  if 2 * r <? 2 ^ k then q
  else if 2 ^ k <? 2 * r then q + 1
  else if Z.even q then q else q + 1.

(** A non-negative integer rounded to [p] significant bits. *)
Definition round_sig (p n : Z) : Z :=
  let k := Z.max 0 (Z.log2 n + 1 - p) in
  rne_shr n k * 2 ^ k.

Definition f32_of_int (n : Z) : f32 := mk_f32 (round_sig 24 n) 0.

Definition f32_mul (a b : f32) : f32 :=
  mk_f32 (round_sig 24 (mant a * mant b)) (expo a + expo b).

(** Division of positive numbers: the quotient is developed to more than
    26 bits, the remainder is kept as a sticky bit, then rounded. *)
Definition f32_div (a b : f32) : f32 :=
  let s := Z.max 0 (28 + Z.log2 (mant b) - Z.log2 (mant a)) in
  let q := (mant a * 2 ^ s) / mant b in
  let r := (mant a * 2 ^ s) mod mant b in
  let sticky := if r =? 0 then 0 else 1 in
  mk_f32 (round_sig 24 (2 * q + sticky)) (expo a - expo b - s - 1).

(** [cvRound]: the nearest integer, ties to even. *)
Definition cvRound (x : f32) : Z :=
  if 0 <=? expo x then mant x * 2 ^ expo x else rne_shr (mant x) (- expo x).

(** The same operations in the Standard Library's specification of IEEE
    arithmetic, instantiated at binary32 (24 bits of precision, exponents
    below 128), against which the definitions above are tested. *)
Definition binary32_of_int (n : Z) : spec_float := binary_normalize 24 128 n 0 false.

Definition same_value (x : f32) (y : spec_float) : bool :=
  match y with
  | S754_zero _ => mant x =? 0
  | S754_finite false m e =>
      let e0 := Z.min e (expo x) in
      mant x * 2 ^ (expo x - e0) =? Zpos m * 2 ^ (e - e0)
  | _ => false
  end.

(** For a divisor [d] and a running sum [s]: the scale 255 / d and the
    product s * scale agree with the binary32 specification. *)
Definition binary32_agrees (d s : Z) : bool :=
  let scale := f32_div (f32_of_int 255) (f32_of_int d) in
  let scale' := SFdiv 24 128 (binary32_of_int 255) (binary32_of_int d) in
  same_value (f32_of_int s) (binary32_of_int s) &&
  same_value scale scale' &&
  same_value (f32_mul (f32_of_int s) scale) (SFmul 24 128 (binary32_of_int s) scale').

(* ================================================================== *)
(** ** [cv2.equalizeHist]                                              *)
(* ================================================================== *)

(** [hist[v]]: how many samples of [src] equal [v]. *)
Definition hist (src : ndarray Z) (v : Z) : Z :=
  Z.of_nat (count_occ Z.eq_dec (data src) v).

(** [i = 0; while (!hist[i]) ++i;] the first occupied bin. *)
Definition first_bin (src : ndarray Z) : option Z :=
  find (fun i => negb (hist src i =? 0)) bins.

(** The running [sum] of the loop when it reaches bin [i]: the number of
    samples in the bins [i0 + 1 .. i]. *)
Definition cumulated (src : ndarray Z) (i0 i : Z) : Z :=
  fold_left Z.add (map (hist src) (filter (fun j => (i0 <? j) && (j <=? i)) bins)) 0.

(** [scale = (hist_sz - 1.f) / (total - hist[i])], in binary32. *)
Definition hist_scale (src : ndarray Z) (i0 : Z) : f32 :=
  f32_div (f32_of_int 255) (f32_of_int (Z.of_nat (size src) - hist src i0)).

(** The lookup table: [lut[i0] = 0], and from there on
    [lut[i] = saturate_cast<uchar>(sum * scale)].  The entries below [i0]
    are left unset by OpenCV and are never read; they are 0 here. *)
Definition lut (src : ndarray Z) (i0 i : Z) : Z :=
  if i <=? i0 then 0
  else saturate_u8 (cvRound (f32_mul (f32_of_int (cumulated src i0 i)) (hist_scale src i0))).

(** [cv2.equalizeHist(src)] on an 8-bit image.  An image with a single
    occupied bin is returned filled with that bin ([dst.setTo(i)]);
    otherwise every sample goes through the table.  (No bin is occupied
    only in an empty image, which the program never passes: [np.min] has
    raised before; it is returned as it is.) *)
Definition cv2_equalizeHist (src : ndarray Z) : M (ndarray Z) :=
  match first_bin src with
  | None => ret src
  | Some i0 =>
      tell (pass "cv2.equalizeHist" (size src)) ;;;
      if hist src i0 =? Z.of_nat (size src)
      then ret (full (shape src) i0)
      else ret (amap (lut src i0) src)
  end.

(** Rank order is kept from [x] to [e]: a strictly smaller sample never
    ends above a larger one. *)
Definition rank_preserved (x e : ndarray Z) : Prop :=
  forall r c r' c' v v',
    pixel x r c = Some v -> pixel x r' c' = Some v' -> v < v' ->
    exists u u', pixel e r c = Some u /\ pixel e r' c' = Some u' /\ u <= u'.

(** [e] is [x] sent through one lookup table: the output at a position
    depends on the input sample alone, so two positions end equal exactly
    when the table gives their samples the same entry. *)
Definition through_table (table : Z -> Z) (x e : ndarray Z) : Prop :=
  forall r c v, pixel x r c = Some v -> pixel e r c = Some (table v).

(* ================================================================== *)
(** ** The program                                                     *)
(* ================================================================== *)

Section Program.

(** Casting NaN (or an infinity) to an integer is undefined in C, and
    numpy stores whatever the conversion instruction of the platform
    leaves; [invalid_byte] is that byte (0 on x86-64 and on AArch64). *)
Variable invalid_byte : Z.

(** [.astype(np.uint8)] of one float64 sample: the fraction is dropped
    and the integer is reduced to 8 bits. *)
Definition astype_uint8 (f : float) : Z :=
  match truncate f with
  | Some z => z mod 256
  | None => invalid_byte
  end.

(** [min_max_normalization(image)]. *)
Definition min_max_normalization {A} (D : dtype A) (image : ndarray A)
  : M (ndarray Z) :=
  minimum_value <- np_min D image ;;
  maximum_value <- np_max D image ;;
  normalized_image <-
    rescale D image minimum_value (dt_sub D maximum_value minimum_value) ;;
  lo <- np_min float64 normalized_image ;;
  hi <- np_max float64 normalized_image ;;
  normalized_image <- np_interp normalized_image (lo, hi) (of_Z 0, of_Z 255) ;;
  tell (pass "astype" (size normalized_image)) ;;;
  ret (amap astype_uint8 normalized_image).

(** The passes one normalisation of [n] samples completes, in order. *)
Definition normalization_trace (n : nat) : list event :=
  [pass "np.min" n; pass "np.max" n; pass "subtract" n; pass "true_divide" n;
   pass "np.min" n; pass "np.max" n; pass "np.interp" n; pass "astype" n].


(** [enhance_images(water_image, fat_image)]. *)
Definition enhance_images (water_image fat_image : ndarray float)
  : M (ndarray Z * ndarray Z) :=
  normalized_water_image <- min_max_normalization float64 water_image ;;
  normalized_fat_image <- min_max_normalization float64 fat_image ;;
  equalized_water_image <- cv2_equalizeHist normalized_water_image ;;
  equalized_fat_image <- cv2_equalizeHist normalized_fat_image ;;
  ret (equalized_water_image, equalized_fat_image).

(** Equal outputs come from equal inputs only. *)
Definition ties_only_from_equal_sources (x e : ndarray Z) : Prop :=
  forall r c r' c' v v' u u',
    pixel x r c = Some v -> pixel x r' c' = Some v' ->
    pixel e r c = Some u -> pixel e r' c' = Some u' ->
    u = u' -> v = v'.

(** The rank-order property as the specification words it, for comparison
    with the code: of each image, the equalisation keeps the order of the
    normalised samples, and two positions end equal only where the
    normalised samples were equal. *)
Definition keeps_rank_with_ties_from_equal_sources (w f : ndarray float) : Prop :=
  exists xw xf ew ef,
    outcome (min_max_normalization float64 w) = inr xw /\
    outcome (min_max_normalization float64 f) = inr xf /\
    outcome (enhance_images w f) = inr (ew, ef) /\
    rank_preserved xw ew /\ rank_preserved xf ef /\
    ties_only_from_equal_sources xw ew /\ ties_only_from_equal_sources xf ef.

(** The pixel array of a DICOM file, of whatever dtype the file stores. *)
Definition pixel_array : Type := { A : Type & (dtype A * ndarray A)%type }.

(** The collaborators of the pipeline.  [dcmread] stands for
    [pydicom.dcmread(path).pixel_array]: the array, or the exception
    raised while opening or decoding the file.  [GaussianBlur] is
    [cv2.GaussianBlur(_, (5, 5), 0)] and [display_images] the matplotlib
    figure. *)
Variable dcmread : string -> exn + pixel_array.
Variable GaussianBlur : ndarray Z -> M (ndarray Z).
Variable display_images :
  ndarray Z -> ndarray Z -> ndarray Z -> ndarray Z -> ndarray Z -> ndarray Z -> M unit.

(** The two exception classes the [except] clauses name. *)
Definition caught (e : exn) : bool :=
  match e with
  | FileNotFoundError | InvalidDicomError => true
  | _ => false
  end.

(** [read_dicom_files(in_phase_file, out_phase_file)]. *)
Definition read_dicom_files (in_phase_file out_phase_file : string)
  : M (option pixel_array * option pixel_array) :=
  match dcmread in_phase_file with
  | inl e =>
      if caught e then
        tell (printed ("Error reading in-phase DICOM file: " ++ in_phase_file)) ;;;
        ret (None, None)
      else raise e
  | inr in_phase_image =>
      match dcmread out_phase_file with
      | inl e =>
          if caught e then
            tell (printed ("Error reading out-phase DICOM file: " ++ out_phase_file)) ;;;
            ret (None, None)
          else raise e
      | inr out_phase_image => ret (Some in_phase_image, Some out_phase_image)
      end
  end.

Definition BASE_DIR : string :=
  "transverse_heart (complete data)/CPTAC-CCRCC/C3N-02262/08-17-2000-NA-MR JB-70639/5.000000-Ax T1 DualEcho outin Phase-97241".

(** [os.path.join] of a non-empty directory and a relative name. *)
Definition path_join (dir name : string) : string := dir ++ "/" ++ name.

Definition normalize_pixel_array (p : pixel_array) : M (ndarray Z) :=
  let (A, Da) := p in min_max_normalization (fst Da) (snd Da).

(** [main()]. *)
Definition main : M unit :=
  let in_phase_file := path_join BASE_DIR "1-06.dcm" in
  let out_phase_file := path_join BASE_DIR "1-05.dcm" in
  files <- read_dicom_files in_phase_file out_phase_file ;;
  match files with
  | (Some in_phase_image, Some out_phase_image) =>
      in_phase_image <- normalize_pixel_array in_phase_image ;;
      out_phase_image <- normalize_pixel_array out_phase_image ;;
      gaussian_in_phase_image <- GaussianBlur in_phase_image ;;
      gaussian_out_phase_image <- GaussianBlur out_phase_image ;;
      wf <- dixon_algorithm in_phase_image out_phase_image ;;
      gwf <- dixon_algorithm gaussian_in_phase_image gaussian_out_phase_image ;;
      ewf <- enhance_images (fst wf) (snd wf) ;;
      egwf <- enhance_images (fst gwf) (snd gwf) ;;
      display_images in_phase_image out_phase_image
                     (fst ewf) (snd ewf) (fst egwf) (snd egwf)
  | _ => ret tt
  end.

End Program.

(* ================================================================== *)
(** ** The display                                                     *)
(* ================================================================== *)

(** What [display_images] can be handed: a two-dimensional array is a
    single-channel image, a three-dimensional one with three samples per
    position a colour image in OpenCV's blue, green, red order. *)
Inductive image : Type :=
| gray (a : ndarray Z)
| bgr (a : ndarray (Z * Z * Z)).

(** [cv2.cvtColor(src, cv2.COLOR_BGR2RGB)].  The conversion asserts that
    the source is not empty and raises [cv2.error] otherwise, before
    reading a sample.  The result has three channels: of a colour image
    the first and the third channel are exchanged; a single-channel image
    comes back with its sample in each of the three channels. *)
Definition cv2_cvtColor_BGR2RGB (src : image) : M (ndarray (Z * Z * Z)) :=
  match src with
  | gray a =>
      match data a with
      | [] => raise cv2_error
      | _ :: _ =>
          tell (pass "cv2.cvtColor" (size a)) ;;;
          ret (amap (fun v => (v, v, v)) a)
      end
  | bgr a =>
      match data a with
      | [] => raise cv2_error
      | _ :: _ =>
          tell (pass "cv2.cvtColor" (size a)) ;;;
          ret (amap (fun p => let '(b, g, r) := p in (r, g, b)) a)
      end
  end.

(** [display_images(in_phase_image, out_phase_image, water_image, fat_image,
    gauss_water_image, gauss_fat_image)]: the six conversions, then the
    3 x 2 figure. *)
Definition display_images
  (in_phase_image out_phase_image water_image fat_image
   gauss_water_image gauss_fat_image : image) : M unit :=
  in_phase_image_rgb <- cv2_cvtColor_BGR2RGB in_phase_image ;;
  out_phase_image_rgb <- cv2_cvtColor_BGR2RGB out_phase_image ;;
  equalized_water_image_rgb <- cv2_cvtColor_BGR2RGB water_image ;;
  equalized_fat_image_rgb <- cv2_cvtColor_BGR2RGB fat_image ;;
  equalized_gauss_water_image_rgb <- cv2_cvtColor_BGR2RGB gauss_water_image ;;
  equalized_gauss_fat_image_rgb <- cv2_cvtColor_BGR2RGB gauss_fat_image ;;
  tell (shown 6).

(** [main] hands [display_images] the two-dimensional arrays of the
    pipeline. *)
Definition display_arrays (a b c d e f : ndarray Z) : M unit :=
  display_images (gray a) (gray b) (gray c) (gray d) (gray e) (gray f).

(** The two files [main] reads. *)
Definition in_phase_path : string := path_join BASE_DIR "1-06.dcm".
Definition out_phase_path : string := path_join BASE_DIR "1-05.dcm".

(** No figure has been drawn in a trace. *)
Definition nothing_shown (t : list event) : Prop :=
  forall n, ~ In (shown n) t.


(** The pixel array of a file that stores the samples [a] with dtype [D]. *)
Definition stored {A} (D : dtype A) (a : ndarray A) : pixel_array :=
  existT (fun A => (dtype A * ndarray A)%type) A (D, a).

(** An image [cv2.cvtColor(_, cv2.COLOR_BGR2RGB)] accepts: one that has
    samples. *)
Definition has_samples (i : image) : bool :=
  match i with
  | gray a => match data a with [] => false | _ :: _ => true end
  | bgr a => match data a with [] => false | _ :: _ => true end
  end.

Definition samples (i : image) : nat :=
  match i with
  | gray a => size a
  | bgr a => size a
  end.

(** What a complete run of [display_images] leaves in the trace: the six
    conversions, then the figure. *)
Definition display_trace (images : list image) : list event :=
  map (fun i => pass "cv2.cvtColor" (samples i)) images ++ [shown 6].


(* ================================================================== *)
(** ** The monad laws                                                  *)
(* ================================================================== *)

Lemma bind_ret_l {A B} (a : A) (k : A -> M B) : bind (ret a) k = k a.
Proof. unfold bind, ret. destruct (k a) as [t r]. reflexivity. Qed.

Lemma bind_ret_r {A} (m : M A) : bind m ret = m.
Proof.
  destruct m as [t [e|a]]; unfold bind, ret; [reflexivity|].
  rewrite app_nil_r. reflexivity.
Qed.

Lemma bind_assoc {A B C} (m : M A) (k : A -> M B) (h : B -> M C) :
  bind (bind m k) h = bind m (fun a => bind (k a) h).
Proof.
  destruct m as [t [e|a]]; unfold bind; [reflexivity|].
  destruct (k a) as [t' [e'|b]]; [reflexivity|].
  destruct (h b) as [t'' r]. rewrite app_assoc. reflexivity.
Qed.

(** An exception ends the run: what follows a [raise] is not executed. *)
Lemma bind_raise {A B} (e : exn) (k : A -> M B) : bind (raise e) k = raise e.
Proof. reflexivity. Qed.

(* ================================================================== *)
(** ** Arrays: positions and elementwise operations                    *)
(* ================================================================== *)

Lemma shape_eqb_eq (s t : nat * nat) : shape_eqb s t = true <-> s = t.
Proof.
  destruct s as [r c], t as [r' c']; unfold shape_eqb; cbn.
  rewrite andb_true_iff, !Nat.eqb_eq. split.
  - intros [-> ->]; reflexivity.
  - intros H; inversion H; auto.
Qed.

Lemma shape_eqb_neq (s t : nat * nat) : s <> t -> shape_eqb s t = false.
Proof.
  intros H. destruct (shape_eqb s t) eqn:E; [|reflexivity].
  apply shape_eqb_eq in E. contradiction.
Qed.

Lemma nth_error_zip_with {A B C} (f : A -> B -> C) l l' n :
  nth_error (zip_with f l l') n =
  match nth_error l n, nth_error l' n with
  | Some x, Some y => Some (f x y)
  | _, _ => None
  end.
Proof.
  revert l' n. induction l as [|x l IH]; intros [|y l'] [|n]; cbn; try reflexivity.
  - destruct (nth_error l n); reflexivity.
  - apply IH.
Qed.

Lemma pixel_amap {A B} (f : A -> B) (a : ndarray A) r c :
  pixel (amap f a) r c = option_map f (pixel a r c).
Proof.
  unfold pixel, amap; cbn [shape data].
  destruct ((r <? fst (shape a))%nat && (c <? snd (shape a))%nat); [|reflexivity].
  apply nth_error_map.
Qed.

Lemma pixel_amap2 {A B C} (f : A -> B -> C) (a : ndarray A) (b : ndarray B) r c :
  shape a = shape b ->
  pixel (amap2 f a b) r c =
  match pixel a r c, pixel b r c with
  | Some x, Some y => Some (f x y)
  | _, _ => None
  end.
Proof.
  intros Hs. unfold pixel, amap2; cbn [shape data]. rewrite <- Hs.
  destruct ((r <? fst (shape a))%nat && (c <? snd (shape a))%nat); [|reflexivity].
  apply nth_error_zip_with.
Qed.

Lemma pixel_In {A} (a : ndarray A) r c v : pixel a r c = Some v -> In v (data a).
Proof.
  unfold pixel. destruct (_ && _); [|discriminate].
  apply nth_error_In.
Qed.

Lemma In_zip_with {A B C} (f : A -> B -> C) l l' z :
  In z (zip_with f l l') -> exists x y, In x l /\ In y l' /\ z = f x y.
Proof.
  revert l'. induction l as [|x l IH]; intros [|y l'] H; cbn in H; try contradiction.
  destruct H as [<-|H].
  - exists x, y. cbn; auto.
  - destruct (IH _ H) as (x' & y' & ? & ? & ?). exists x', y'. cbn; auto.
Qed.

Lemma length_zip_with {A B C} (f : A -> B -> C) l l' :
  List.length l = List.length l' -> List.length (zip_with f l l') = List.length l.
Proof.
  revert l'. induction l as [|x l IH]; intros [|y l'] H; cbn in *; try congruence.
  f_equal. apply IH. congruence.
Qed.

(* ================================================================== *)
(** ** Checking a property on the 256 byte values                      *)
(* ================================================================== *)

(** A closed boolean check is settled by evaluating it; the kernel runs the
    same evaluation when the proof is saved. *)
Ltac by_evaluation := vm_cast_no_check (eq_refl true).

Lemma In_bins (v : Z) : In v bins <-> is_u8 v.
Proof.
  unfold bins, is_u8. rewrite in_map_iff. split.
  - intros (n & <- & Hn). apply in_seq in Hn. lia.
  - intros H. exists (Z.to_nat v). split; [lia|]. apply in_seq. lia.
Qed.

Lemma forall_u8 (p : Z -> bool) :
  forallb p bins = true -> forall v, is_u8 v -> p v = true.
Proof.
  intros H v Hv. rewrite forallb_forall in H. apply H, In_bins, Hv.
Qed.

Lemma forall_u8_pairs (p : Z -> Z -> bool) :
  forallb (fun x => forallb (p x) bins) bins = true ->
  forall x y, is_u8 x -> is_u8 y -> p x y = true.
Proof.
  intros H x y Hx Hy. rewrite forallb_forall in H.
  specialize (H x (proj2 (In_bins x) Hx)). rewrite forallb_forall in H.
  apply H, In_bins, Hy.
Qed.

Lemma denotesb_denotes f q : denotesb f q = true -> denotes f q.
Proof.
  unfold denotesb, denotes. destruct (F2Q f); [|discriminate].
  apply Qeq_bool_iff.
Qed.

(** Halving a byte in float64 is exact. *)
Lemma half_exact (s : Z) : is_u8 s -> denotes (half s) (s # 2).
Proof.
  intros Hs. apply denotesb_denotes.
  revert s Hs. apply (forall_u8 (fun s => denotesb (half s) (s # 2))).
  vm_compute. reflexivity.
Qed.

Lemma saturate_u8_range z : is_u8 (saturate_u8 z).
Proof. unfold is_u8, saturate_u8. lia. Qed.

(* ================================================================== *)
(** ** The library routines on a few values                            *)
(* ================================================================== *)

Example of_Z_255 : of_Z 255 = 255%float.
Proof. reflexivity. Qed.

Example half_of_255 : half 255 = 127.5%float.
Proof. reflexivity. Qed.

Example truncate_drops_the_fraction :
  truncate 95.625%float = Some 95 /\ truncate (-2.5)%float = Some (-2) /\
  truncate 255%float = Some 255 /\ truncate nan = None.
Proof. repeat split; reflexivity. Qed.

Example astype_uint8_wraps : astype_uint8 0 256.5%float = 0 /\ astype_uint8 0 300%float = 44.
Proof. split; reflexivity. Qed.

Example interp1_between_0_and_1 :
  interp1 0%float 1%float 0%float 255%float 0.375%float = 95.625%float /\
  interp1 0%float 1%float 0%float 255%float 1%float = 255%float /\
  interp1 0%float 1%float 0%float 255%float 2%float = 255%float /\
  interp1 0%float 1%float 0%float 255%float (-1)%float = 0%float.
Proof. repeat split; reflexivity. Qed.

Example saturating_sum_and_difference :
  outcome (cv2_add (full (1, 1)%nat 200) (full (1, 1)%nat 100))
    = inr (Some (full (1, 1)%nat 255)) /\
  outcome (cv2_subtract (full (1, 1)%nat 50) (full (1, 1)%nat 100))
    = inr (Some (full (1, 1)%nat 0)).
Proof. split; reflexivity. Qed.

Example np_min_of_nothing :
  np_min uint8 (mk_ndarray (0, 5)%nat []) = ([], inl ValueError).
Proof. reflexivity. Qed.

(* ================================================================== *)
(** ** The separator: what it computes                                 *)
(* ================================================================== *)

(** Unfolding of the separator on non-empty arrays of equal shape. *)
Lemma dixon_algorithm_eq (a b : ndarray Z) :
  shape a = shape b -> data a <> [] ->
  dixon_algorithm a b =
  ([pass "cv2.add" (size a); pass "true_divide" (size a);
    pass "cv2.subtract" (size a); pass "true_divide" (size a)],
   inr (amap half (amap2 (fun x y => saturate_u8 (x + y)) a b),
        amap half (amap2 (fun x y => saturate_u8 (x - y)) a b))).
Proof.
  intros Hs Hne. unfold dixon_algorithm, cv2_add, cv2_subtract.
  rewrite (proj2 (shape_eqb_eq _ _) Hs).
  destruct (data a) as [|x t]; [congruence|]. reflexivity.
Qed.

(** On arrays without samples [cv2.add] returns [None], and the division
    of [None] by 2 raises [TypeError]. *)
Lemma dixon_algorithm_empty (a b : ndarray Z) :
  shape a = shape b -> data a = [] ->
  dixon_algorithm a b = ([pass "cv2.add" (size a)], inl TypeError).
Proof.
  intros Hs He. unfold dixon_algorithm, cv2_add.
  rewrite (proj2 (shape_eqb_eq _ _) Hs), He. reflexivity.
Qed.

Example dixon_algorithm_of_nothing :
  dixon_algorithm (mk_ndarray (0, 5)%nat []) (mk_ndarray (0, 5)%nat [])
  = ([pass "cv2.add" 0], inl TypeError).
Proof. reflexivity. Qed.

(** The separator returns only on non-empty arrays of equal shape. *)
Lemma dixon_algorithm_returned (a b : ndarray Z) w f :
  outcome (dixon_algorithm a b) = inr (w, f) -> shape a = shape b /\ data a <> [].
Proof.
  intros Ho. destruct (shape_eqb (shape a) (shape b)) eqn:E.
  - apply shape_eqb_eq in E. split; [exact E|]. intros He.
    rewrite (dixon_algorithm_empty a b E He) in Ho. discriminate Ho.
  - unfold dixon_algorithm, cv2_add in Ho. rewrite E in Ho. discriminate Ho.
Qed.

(** Sample by sample: half the saturated sum and half the saturated
    difference. *)
Lemma dixon_algorithm_pixel (a b : ndarray Z) w f r c x y :
  shape a = shape b ->
  outcome (dixon_algorithm a b) = inr (w, f) ->
  pixel a r c = Some x -> pixel b r c = Some y ->
  pixel w r c = Some (half (saturate_u8 (x + y))) /\
  pixel f r c = Some (half (saturate_u8 (x - y))).
Proof.
  intros Hs Ho Hx Hy.
  rewrite (dixon_algorithm_eq a b Hs (proj2 (dixon_algorithm_returned a b w f Ho))) in Ho.
  cbn in Ho. inversion Ho; subst w f; clear Ho.
  rewrite !pixel_amap, !pixel_amap2, Hx, Hy by assumption. cbn. auto.
Qed.

Lemma u8_pixel (a : ndarray Z) r c x : u8_image a -> pixel a r c = Some x -> is_u8 x.
Proof.
  intros [_ Hu] Hp. rewrite Forall_forall in Hu. eapply Hu, pixel_In, Hp.
Qed.

Lemma dixon_algorithm_shapes (a b : ndarray Z) w f :
  well_shaped a -> well_shaped b -> shape a = shape b ->
  outcome (dixon_algorithm a b) = inr (w, f) ->
  shape w = shape a /\ shape f = shape a /\ well_shaped w /\ well_shaped f.
Proof.
  intros Ha Hb Hs Ho.
  rewrite (dixon_algorithm_eq a b Hs (proj2 (dixon_algorithm_returned a b w f Ho))) in Ho.
  cbn in Ho. inversion Ho; subst w f; clear Ho.
  unfold well_shaped, size in *. cbn.
  rewrite !length_map, !length_zip_with; auto; rewrite Ha, Hb, Hs; reflexivity.
Qed.

(** C1, as the code has it.  For same-shaped non-empty 8-bit images the
    separator returns, at every position, water = min(in + out, 255) / 2 and
    fat = max(in - out, 0) / 2: the sum and the difference are OpenCV's
    saturating 8-bit operations, the halving is exact in float64.  The
    values are the plain (in + out) / 2 and (in - out) / 2 wherever the sum
    stays within 255 and the difference is not negative. *)
Theorem dixon_algorithm_saturating_halves (a b : ndarray Z) :
  u8_image a -> u8_image b -> shape a = shape b -> data a <> [] ->
  exists w f,
    outcome (dixon_algorithm a b) = inr (w, f) /\
    shape w = shape a /\ shape f = shape a /\
    forall r c x y,
      pixel a r c = Some x -> pixel b r c = Some y ->
      exists wv fv,
        pixel w r c = Some wv /\ pixel f r c = Some fv /\
        denotes wv (Z.min 255 (x + y) # 2) /\
        denotes fv (Z.max 0 (x - y) # 2) /\
        (x + y <= 255 -> denotes wv ((x + y) # 2)) /\
        (y <= x -> denotes fv ((x - y) # 2)).
Proof.
  intros Ha Hb Hs Hne.
  destruct (dixon_algorithm a b) as [t [e|[w f]]] eqn:E;
    [rewrite (dixon_algorithm_eq a b Hs Hne) in E; discriminate|].
  assert (Ho : outcome (dixon_algorithm a b) = inr (w, f)) by (rewrite E; reflexivity).
  exists w, f. cbn.
  destruct (dixon_algorithm_shapes a b w f (proj1 Ha) (proj1 Hb) Hs Ho) as (Hw & Hf & _).
  repeat split; auto.
  intros r c x y Hx Hy.
  destruct (dixon_algorithm_pixel a b w f r c x y Hs Ho Hx Hy) as [Hwv Hfv].
  pose proof (u8_pixel _ _ _ _ Ha Hx) as Ux. pose proof (u8_pixel _ _ _ _ Hb Hy) as Uy.
  unfold is_u8 in Ux, Uy.
  assert (Ew : saturate_u8 (x + y) = Z.min 255 (x + y)) by (unfold saturate_u8; lia).
  assert (Ef : saturate_u8 (x - y) = Z.max 0 (x - y)) by (unfold saturate_u8; lia).
  exists (half (saturate_u8 (x + y))), (half (saturate_u8 (x - y))).
  repeat split; auto.
  - rewrite <- Ew. apply half_exact, saturate_u8_range.
  - rewrite <- Ef. apply half_exact, saturate_u8_range.
  - intros H. replace (x + y) with (saturate_u8 (x + y)) at 2 by lia.
    apply half_exact, saturate_u8_range.
  - intros H. replace (x - y) with (saturate_u8 (x - y)) at 2 by lia.
    apply half_exact, saturate_u8_range.
Qed.

Lemma u8_image_intro (sh : nat * nat) (l : list Z) :
  List.length l = (fst sh * snd sh)%nat -> forallb (fun v => (0 <=? v) && (v <=? 255)) l = true ->
  u8_image (mk_ndarray sh l).
Proof.
  intros Hl Hv. split; [exact Hl|]. cbn. apply Forall_forall. intros v Hin.
  rewrite forallb_forall in Hv. specialize (Hv v Hin). unfold is_u8. lia.
Qed.

Lemma dixon_algorithm_saturating_halves_witness :
  let a := mk_ndarray (1, 2)%nat [200; 50] in
  let b := mk_ndarray (1, 2)%nat [100; 100] in
  exists w f,
    outcome (dixon_algorithm a b) = inr (w, f) /\
    shape w = shape a /\ shape f = shape a /\
    forall r c x y,
      pixel a r c = Some x -> pixel b r c = Some y ->
      exists wv fv,
        pixel w r c = Some wv /\ pixel f r c = Some fv /\
        denotes wv (Z.min 255 (x + y) # 2) /\
        denotes fv (Z.max 0 (x - y) # 2) /\
        (x + y <= 255 -> denotes wv ((x + y) # 2)) /\
        (y <= x -> denotes fv ((x - y) # 2)).
Proof.
  intros a b.
  apply (dixon_algorithm_saturating_halves a b).
  - apply u8_image_intro; reflexivity.
  - apply u8_image_intro; reflexivity.
  - reflexivity.
  - discriminate.
Defined.

(** C1 as stated fails: on in-phase (200, 50) and out-phase (100, 100) the
    code returns water 127.5 at the first position, not 150, and fat 0 at
    the second, not -25. *)
Lemma dixon_algorithm_clamps :
  ~ unclamped_separation (mk_ndarray (1, 2)%nat [200; 50])
                         (mk_ndarray (1, 2)%nat [100; 100]).
Proof.
  intros (w & f & Ho & H).
  cbn in Ho. inversion Ho; subst w f; clear Ho.
  destruct (H 0%nat 0%nat 200 100 eq_refl eq_refl) as (wv & fv & Hw & _ & Dw & _).
  cbn in Hw. inversion Hw; subst wv; clear Hw.
  vm_compute in Dw. discriminate Dw.
Qed.

Lemma reconstruction_check_ok :
  forallb (fun x => forallb (reconstructs x) bins) bins = true.
Proof. by_evaluation. Qed.

Lemma reconstruction_exact (x y : Z) :
  is_u8 x -> is_u8 y -> x + y <= 255 -> y <= x ->
  denotes (PrimFloat.add (half (x + y)) (half (x - y))) (x # 1) /\
  denotes (PrimFloat.sub (half (x + y)) (half (x - y))) (y # 1).
Proof.
  intros Hx Hy H1 H2.
  pose proof (forall_u8_pairs reconstructs reconstruction_check_ok x y Hx Hy) as Cxy.
  unfold reconstructs in Cxy.
  apply Z.leb_le in H1, H2. rewrite H1, H2 in Cxy. cbn [andb] in Cxy.
  apply andb_true_iff in Cxy. destruct Cxy. split; apply denotesb_denotes; assumption.
Qed.

(** C2.  Round trip of the separation.  For same-shaped non-empty 8-bit
    images (on empty ones the separator raises [TypeError] and returns no
    pair) on which nothing clips (in + out <= 255 and out <= in everywhere), the
    outputs denote rationals whose sum is the in-phase sample and whose
    difference is the out-phase sample; the float64 sum and difference of
    the outputs give the two samples back exactly as well. *)
Theorem dixon_algorithm_round_trip (a b : ndarray Z) :
  u8_image a -> u8_image b -> shape a = shape b -> data a <> [] -> no_clamping a b ->
  exists w f,
    outcome (dixon_algorithm a b) = inr (w, f) /\
    forall r c x y,
      pixel a r c = Some x -> pixel b r c = Some y ->
      exists wv fv,
        pixel w r c = Some wv /\ pixel f r c = Some fv /\
        (exists qw qf, denotes wv qw /\ denotes fv qf /\
                       (qw + qf == x # 1)%Q /\ (qw - qf == y # 1)%Q) /\
        denotes (PrimFloat.add wv fv) (x # 1) /\
        denotes (PrimFloat.sub wv fv) (y # 1).
Proof.
  intros Ha Hb Hs Hne Hn.
  destruct (dixon_algorithm a b) as [t [e|[w f]]] eqn:E;
    [rewrite (dixon_algorithm_eq a b Hs Hne) in E; discriminate|].
  assert (Ho : outcome (dixon_algorithm a b) = inr (w, f)) by (rewrite E; reflexivity).
  exists w, f. split; [reflexivity|].
  intros r c x y Hx Hy.
  destruct (dixon_algorithm_pixel a b w f r c x y Hs Ho Hx Hy) as [Hwv Hfv].
  pose proof (u8_pixel _ _ _ _ Ha Hx) as Ux. pose proof (u8_pixel _ _ _ _ Hb Hy) as Uy.
  destruct (Hn r c x y Hx Hy) as [H1 H2].
  assert (Ew : saturate_u8 (x + y) = x + y) by (unfold is_u8, saturate_u8 in *; lia).
  assert (Ef : saturate_u8 (x - y) = x - y) by (unfold is_u8, saturate_u8 in *; lia).
  rewrite Ew in Hwv. rewrite Ef in Hfv.
  exists (half (x + y)), (half (x - y)).
  destruct (reconstruction_exact x y Ux Uy H1 H2) as [R1 R2].
  repeat split; auto.
  exists ((x + y) # 2), ((x - y) # 2). repeat split.
  - apply half_exact. unfold is_u8 in *. lia.
  - apply half_exact. unfold is_u8 in *. lia.
  - unfold Qeq, Qplus; cbn. lia.
  - unfold Qeq, Qminus, Qplus, Qopp; cbn. lia.
Qed.

Lemma dixon_algorithm_round_trip_witness :
  let a := mk_ndarray (2, 2)%nat [100; 100; 37; 255] in
  let b := mk_ndarray (2, 2)%nat [50; 50; 37; 0] in
  exists w f,
    outcome (dixon_algorithm a b) = inr (w, f) /\
    forall r c x y,
      pixel a r c = Some x -> pixel b r c = Some y ->
      exists wv fv,
        pixel w r c = Some wv /\ pixel f r c = Some fv /\
        (exists qw qf, denotes wv qw /\ denotes fv qf /\
                       (qw + qf == x # 1)%Q /\ (qw - qf == y # 1)%Q) /\
        denotes (PrimFloat.add wv fv) (x # 1) /\
        denotes (PrimFloat.sub wv fv) (y # 1).
Proof.
  intros a b.
  apply (dixon_algorithm_round_trip a b).
  - apply u8_image_intro; reflexivity.
  - apply u8_image_intro; reflexivity.
  - reflexivity.
  - discriminate.
  - intros r c x y.
    destruct r as [|[|r]]; destruct c as [|[|c]]; cbn; intros Hx Hy;
      try discriminate; inversion Hx; inversion Hy; subst; lia.
Defined.

(** Where the sum clips the round trip is lost: from in-phase 200 and
    out-phase 100 the outputs are 127.5 and 50, whose sum is 177.5. *)
Example round_trip_lost_when_clipping :
  outcome (dixon_algorithm (full (1, 1)%nat 200) (full (1, 1)%nat 100))
  = inr (full (1, 1)%nat (half 255), full (1, 1)%nat (half 100)) /\
  denotes (PrimFloat.add (half 255) (half 100)) (355 # 2).
Proof. split; [reflexivity|]. apply denotesb_denotes. vm_compute. reflexivity. Qed.

(** C9.  For same-shaped non-empty 8-bit images the separator returns two
    images of the shape of its inputs, with one sample per position, and
    at every position both the water and the fat sample lie between 0 and
    127.5: the sum was clipped at 255 and the difference at 0 before the
    halving, so the fat output is never negative.  (On images without
    samples the separator raises [TypeError] and has no outputs.) *)
Theorem dixon_algorithm_outputs_bounded (a b : ndarray Z) :
  u8_image a -> u8_image b -> shape a = shape b -> data a <> [] ->
  exists w f,
    outcome (dixon_algorithm a b) = inr (w, f) /\
    shape w = shape a /\ shape f = shape a /\
    well_shaped w /\ well_shaped f /\
    (forall r c x y,
        pixel a r c = Some x -> pixel b r c = Some y ->
        exists wv fv qw qf,
          pixel w r c = Some wv /\ pixel f r c = Some fv /\
          denotes wv qw /\ denotes fv qf /\
          (0 <= qw)%Q /\ (qw <= 255 # 2)%Q /\
          (0 <= qf)%Q /\ (qf <= 255 # 2)%Q) /\
    Forall (fun v => exists q, denotes v q /\ (0 <= q)%Q /\ (q <= 255 # 2)%Q) (data w) /\
    Forall (fun v => exists q, denotes v q /\ (0 <= q)%Q /\ (q <= 255 # 2)%Q) (data f).
Proof.
  intros Ha Hb Hs Hne.
  assert (Hq : forall z, denotes (half (saturate_u8 z)) (saturate_u8 z # 2) /\
                         (0 <= saturate_u8 z # 2)%Q /\ (saturate_u8 z # 2 <= 255 # 2)%Q).
  { intros z. split; [apply half_exact, saturate_u8_range|].
    pose proof (saturate_u8_range z) as Hz. unfold is_u8 in Hz.
    unfold Qle; cbn. lia. }
  pose proof (dixon_algorithm_eq a b Hs Hne) as E.
  eexists _, _. split; [rewrite E; reflexivity|].
  destruct (dixon_algorithm_shapes a b _ _ (proj1 Ha) (proj1 Hb) Hs
              ltac:(rewrite E; reflexivity)) as (Sw & Sf & Ww & Wf).
  split; [exact Sw|]. split; [exact Sf|]. split; [exact Ww|]. split; [exact Wf|].
  split; [|split].
  - intros r c x y Hx Hy.
    exists (half (saturate_u8 (x + y))), (half (saturate_u8 (x - y))),
      (saturate_u8 (x + y) # 2), (saturate_u8 (x - y) # 2).
    rewrite !pixel_amap, !(pixel_amap2 _ a b r c Hs), Hx, Hy.
    destruct (Hq (x + y)) as (D1 & L1 & U1). destruct (Hq (x - y)) as (D2 & L2 & U2).
    split; [reflexivity|]. split; [reflexivity|].
    split; [exact D1|]. split; [exact D2|].
    split; [exact L1|]. split; [exact U1|]. split; [exact L2|exact U2].
  - apply Forall_forall; intros v Hv; cbn [amap data] in Hv; apply in_map_iff in Hv.
    destruct Hv as (z & <- & Hz). apply In_zip_with in Hz.
    destruct Hz as (x & y & _ & _ & ->). eexists. apply Hq.
  - apply Forall_forall; intros v Hv; cbn [amap data] in Hv; apply in_map_iff in Hv.
    destruct Hv as (z & <- & Hz). apply In_zip_with in Hz.
    destruct Hz as (x & y & _ & _ & ->). eexists. apply Hq.
Qed.

Lemma dixon_algorithm_outputs_bounded_witness :
  let a := mk_ndarray (1, 2)%nat [200; 50] in
  let b := mk_ndarray (1, 2)%nat [100; 100] in
  exists w f,
    outcome (dixon_algorithm a b) = inr (w, f) /\
    shape w = shape a /\ shape f = shape a /\
    well_shaped w /\ well_shaped f /\
    (forall r c x y,
        pixel a r c = Some x -> pixel b r c = Some y ->
        exists wv fv qw qf,
          pixel w r c = Some wv /\ pixel f r c = Some fv /\
          denotes wv qw /\ denotes fv qf /\
          (0 <= qw)%Q /\ (qw <= 255 # 2)%Q /\
          (0 <= qf)%Q /\ (qf <= 255 # 2)%Q) /\
    Forall (fun v => exists q, denotes v q /\ (0 <= q)%Q /\ (q <= 255 # 2)%Q) (data w) /\
    Forall (fun v => exists q, denotes v q /\ (0 <= q)%Q /\ (q <= 255 # 2)%Q) (data f).
Proof.
  intros a b.
  apply (dixon_algorithm_outputs_bounded a b).
  - apply u8_image_intro; reflexivity.
  - apply u8_image_intro; reflexivity.
  - reflexivity.
  - discriminate.
Defined.

(** C3.  When the two shapes differ the separator raises OpenCV's size
    error (the specification's DimensionMismatch) from its first statement:
    the run ends with [cv2_error] and an empty trace, no pass over the
    samples having been made. *)
Theorem dixon_algorithm_shape_mismatch (a b : ndarray Z) :
  shape a <> shape b ->
  dixon_algorithm a b = ([], inl cv2_error).
Proof.
  intros Hs. unfold dixon_algorithm, cv2_add.
  rewrite (shape_eqb_neq _ _ Hs). reflexivity.
Qed.

Lemma dixon_algorithm_shape_mismatch_witness :
  dixon_algorithm (full (10, 10)%nat 0) (full (10, 12)%nat 0) = ([], inl cv2_error).
Proof.
  apply (dixon_algorithm_shape_mismatch (full (10, 10)%nat 0) (full (10, 12)%nat 0)).
  cbn. discriminate.
Defined.

(* ================================================================== *)
(** ** Normalisation: unfolding                                        *)
(* ================================================================== *)

(** On a non-empty array no stage of the normalisation raises, and the
    result is the composition of its four elementwise passes. *)
Lemma min_max_normalization_eq {A} (ib : Z) (D : dtype A) (a : ndarray A) x t :
  data a = x :: t ->
  let mn := fold_left (minimum D) t x in
  let mx := fold_left (maximum D) t x in
  let q := fun v => PrimFloat.div (dt_float D (dt_sub D v mn)) (dt_float D (dt_sub D mx mn)) in
  let lo := fold_left (minimum float64) (map q t) (q x) in
  let hi := fold_left (maximum float64) (map q t) (q x) in
  min_max_normalization ib D a =
  (normalization_trace (size a),
   inr (amap (fun v => astype_uint8 ib (interp1 lo hi (of_Z 0) (of_Z 255) (q v))) a)).
Proof.
  intros H mn mx q lo hi.
  unfold min_max_normalization, np_min, np_max, rescale, np_interp, amap, size.
  cbn [data shape]. rewrite !H. cbn [map bind tell ret app fst snd data shape].
  rewrite !map_map. reflexivity.
Qed.

(* ================================================================== *)
(** ** Normalisation of a constant image                               *)
(* ================================================================== *)

Lemma minimum_self {A} (D : dtype A) v : minimum D v v = v.
Proof. unfold minimum. destruct (_ || _); reflexivity. Qed.

Lemma maximum_self {A} (D : dtype A) v : maximum D v v = v.
Proof. unfold maximum. destruct (_ || _); reflexivity. Qed.

Lemma fold_left_constant {A} (f : A -> A -> A) v l :
  f v v = v -> Forall (eq v) l -> fold_left f l v = v.
Proof.
  intros Hf H. induction H as [|y l <- _ IH]; cbn; [reflexivity|].
  rewrite Hf. exact IH.
Qed.

(** In float64 the difference of a value with itself divided by itself is
    NaN, whatever the value. *)
Lemma float64_self_quotient (v : float) :
  Prim2SF (PrimFloat.div (PrimFloat.sub v v) (PrimFloat.sub v v)) = S754_nan.
Proof.
  rewrite FloatAxioms.div_spec, FloatAxioms.sub_spec.
  destruct (Prim2SF v) as [s|s| |s m e].
  - destruct s; reflexivity.
  - destruct s; reflexivity.
  - reflexivity.
  - unfold SF64sub, SFsub. rewrite Z.min_id. unfold shl_align. rewrite Z.sub_diag.
    cbn [fst]. reflexivity.
Qed.

(** The zero range of a constant image: [(v - v) / (v - v)] is NaN in every
    dtype of the program. *)
Lemma self_quotient_nan {A} (D : dtype A) (v : A) :
  known_dtype A D ->
  Prim2SF (PrimFloat.div (dt_float D (dt_sub D v v)) (dt_float D (dt_sub D v v))) = S754_nan.
Proof.
  intros K. destruct K as [w|].
  - cbn [uint dt_float dt_sub]. rewrite Z.sub_diag, Zmod_0_l. reflexivity.
  - apply float64_self_quotient.
Qed.

Lemma is_nan_Prim2SF (x : float) : Prim2SF x = S754_nan -> PrimFloat.is_nan x = true.
Proof.
  intros H. unfold PrimFloat.is_nan. rewrite FloatAxioms.eqb_spec, H. reflexivity.
Qed.

Lemma astype_uint8_nan (ib : Z) (x : float) :
  Prim2SF x = S754_nan -> astype_uint8 ib x = ib.
Proof. intros H. unfold astype_uint8, truncate. rewrite H. reflexivity. Qed.

Lemma interp1_nan x0 x1 y0 y1 x :
  PrimFloat.is_nan x = true -> interp1 x0 x1 y0 y1 x = x.
Proof. intros H. unfold interp1. rewrite H. reflexivity. Qed.

Lemma map_constant {A B} (f : A -> B) (v : A) (b : B) l :
  f v = b -> Forall (eq v) l -> map f l = repeat b (List.length l).
Proof.
  intros Hf H. induction H as [|y l <- _ IH]; cbn; [reflexivity|].
  rewrite Hf, IH. reflexivity.
Qed.

(** A non-empty constant image of a known dtype normalises, without any
    exception, to the image of the same shape filled with the byte the
    platform stores for an invalid conversion. *)
Lemma constant_image_normalizes_to_invalid_byte {A} (ib : Z) (D : dtype A) (a : ndarray A) (v : A) :
  known_dtype A D -> well_shaped a -> data a <> [] -> Forall (eq v) (data a) ->
  min_max_normalization ib D a = (normalization_trace (size a), inr (full (shape a) ib)).
Proof.
  intros K Hw Hne Hc.
  destruct (data a) as [|x t] eqn:E; [congruence|].
  inversion Hc as [|? ? Hx Ht]; subst x.
  rewrite (min_max_normalization_eq ib D a v t E). cbn zeta.
  rewrite (fold_left_constant (minimum D) v t (minimum_self D v) Ht).
  rewrite (fold_left_constant (maximum D) v t (maximum_self D v) Ht).
  pose proof (self_quotient_nan D v K) as Hn.
  set (n0 := PrimFloat.div (dt_float D (dt_sub D v v)) (dt_float D (dt_sub D v v))) in *.
  f_equal. f_equal. unfold amap, full. f_equal.
  rewrite E. unfold well_shaped, size in Hw. rewrite <- Hw, E.
  apply (map_constant _ v); [|constructor; auto].
  rewrite interp1_nan by (apply is_nan_Prim2SF, Hn).
  apply astype_uint8_nan, Hn.
Qed.

(** C4.  A constant image (all samples equal, so max == min) of any dtype
    of the program normalises to the all-zero 8-bit image of the same
    shape, and no exception is raised: the 0/0 of the zero range is a
    float64 NaN, and its conversion to a byte gives 0 (the platform's
    invalid-conversion byte, here 0 as on x86-64 and AArch64). *)
Theorem min_max_normalization_constant {A} (D : dtype A) (a : ndarray A) (v : A) :
  known_dtype A D -> well_shaped a -> data a <> [] -> Forall (eq v) (data a) ->
  outcome (min_max_normalization 0 D a) = inr (full (shape a) 0) /\
  shape (full (shape a) 0 : ndarray Z) = shape a /\
  Forall (eq 0) (data (full (shape a) 0 : ndarray Z)).
Proof.
  intros K Hw Hne Hc.
  rewrite (constant_image_normalizes_to_invalid_byte 0 D a v K Hw Hne Hc).
  repeat split. cbn. apply Forall_forall. intros z Hz.
  apply repeat_spec in Hz. congruence.
Qed.

Lemma min_max_normalization_constant_witness :
  let a := mk_ndarray (2, 3)%nat [7; 7; 7; 7; 7; 7] in
  outcome (min_max_normalization 0 uint8 a) = inr (full (shape a) 0) /\
  shape (full (shape a) 0 : ndarray Z) = shape a /\
  Forall (eq 0) (data (full (shape a) 0 : ndarray Z)).
Proof.
  intros a.
  apply (min_max_normalization_constant uint8 a 7).
  - apply known_uint.
  - reflexivity.
  - discriminate.
  - repeat constructor.
Defined.

(** The same on a 16-bit image and on a float64 image. *)
Example constant_uint16_and_float64 :
  outcome (min_max_normalization 0 uint16 (full (2, 2)%nat 1000)) = inr (full (2, 2)%nat 0) /\
  outcome (min_max_normalization 0 float64 (full (2, 2)%nat 75%float)) = inr (full (2, 2)%nat 0).
Proof. split; vm_compute; reflexivity. Qed.

(* ================================================================== *)
(** ** Normalisation of an 8-bit image                                 *)
(* ================================================================== *)

(** The float64 facts, checked on every pair of bytes. *)
Lemma level_check_ok : forallb (fun d => forallb (level_ok d) bins) bins = true.
Proof. by_evaluation. Qed.

Lemma level_facts (k d : Z) :
  0 <= k <= d -> 1 <= d <= 255 ->
  PrimFloat.is_nan (quotient k d) = false /\
  PrimFloat.leb (quotient 0 d) (quotient k d) = true /\
  (1 <= k -> PrimFloat.leb (quotient k d) (quotient 0 d) = false) /\
  PrimFloat.leb (quotient k d) (quotient d d) = true /\
  (k < d -> PrimFloat.leb (quotient d d) (quotient k d) = false) /\
  normalized_level k d = Some (255 * k / d).
Proof.
  intros Hk Hd.
  assert (Ud : is_u8 d) by (unfold is_u8; lia).
  assert (Uk : is_u8 k) by (unfold is_u8; lia).
  pose proof (forall_u8_pairs level_ok level_check_ok d k Ud Uk) as C.
  unfold level_ok in C.
  replace (1 <=? d) with true in C by (symmetry; apply Z.leb_le; lia).
  replace (k <=? d) with true in C by (symmetry; apply Z.leb_le; lia).
  cbn [andb] in C. rewrite !andb_true_iff in C.
  destruct C as (((((C1 & C2) & C3) & C4) & C5) & C6).
  repeat split.
  - apply negb_true_iff, C1.
  - exact C2.
  - intros H. replace (1 <=? k) with true in C3 by (symmetry; apply Z.leb_le; lia).
    apply negb_true_iff, C3.
  - exact C4.
  - intros H. replace (k <? d) with true in C5 by (symmetry; apply Z.ltb_lt; lia).
    apply negb_true_iff, C5.
  - destruct (normalized_level k d) as [z|]; [|discriminate].
    apply Z.eqb_eq in C6. congruence.
Qed.

(** A selective operation folds to an element that absorbs the others. *)
Lemma fold_left_absorbing {A} (f : A -> A -> A) (z : A) l x :
  (forall a b, f a b = a \/ f a b = b) ->
  (forall y, In y (x :: l) -> f z y = z /\ f y z = z) ->
  In z (x :: l) -> fold_left f l x = z.
Proof.
  intros Hsel. revert x. induction l as [|y l IH]; intros x Habs Hin.
  - cbn in *. destruct Hin as [->|[]]. reflexivity.
  - cbn [fold_left]. apply IH.
    + intros y' [<-|Hy'].
      * destruct (Hsel x y) as [->| ->]; apply Habs; cbn; auto.
      * apply Habs. cbn; auto.
    + destruct Hin as [Hz|[Hz|Hin]].
      * left. subst x. apply (Habs y). cbn; auto.
      * left. subst y. apply (Habs x). cbn; auto.
      * right. exact Hin.
Qed.

Lemma minimum_selective {A} (D : dtype A) a b : minimum D a b = a \/ minimum D a b = b.
Proof. unfold minimum. destruct (_ || _); auto. Qed.

Lemma maximum_selective {A} (D : dtype A) a b : maximum D a b = a \/ maximum D a b = b.
Proof. unfold maximum. destruct (_ || _); auto. Qed.

(** [np.min] and [np.max] of integer samples: a member of the array that
    bounds all the others. *)
Lemma fold_minimum_uint w t x :
  let m := fold_left (minimum (uint w)) t x in
  In m (x :: t) /\ forall v, In v (x :: t) -> m <= v.
Proof.
  revert x. induction t as [|y t IH]; intros x; cbn zeta.
  - cbn. split; [auto|]. intros v [<-|[]]. lia.
  - cbn [fold_left]. specialize (IH (minimum (uint w) x y)). cbn zeta in IH.
    destruct IH as [Hin Hle].
    assert (Hm : minimum (uint w) x y = Z.min x y).
    { unfold minimum; cbn. rewrite orb_false_r. destruct (Z.leb_spec x y); lia. }
    rewrite Hm in *. split.
    + destruct Hin as [Hin|Hin]; [|cbn; auto].
      rewrite <- Hin. destruct (Z.min_spec x y) as [[_ ->]|[_ ->]]; cbn; auto.
    + intros v [<-|[<-|Hv]].
      * specialize (Hle (Z.min x y) (or_introl eq_refl)). lia.
      * specialize (Hle (Z.min x y) (or_introl eq_refl)). lia.
      * apply Hle. cbn; auto.
Qed.

Lemma fold_maximum_uint w t x :
  let m := fold_left (maximum (uint w)) t x in
  In m (x :: t) /\ forall v, In v (x :: t) -> v <= m.
Proof.
  revert x. induction t as [|y t IH]; intros x; cbn zeta.
  - cbn. split; [auto|]. intros v [<-|[]]. lia.
  - cbn [fold_left]. specialize (IH (maximum (uint w) x y)). cbn zeta in IH.
    destruct IH as [Hin Hle].
    assert (Hm : maximum (uint w) x y = Z.max x y).
    { unfold maximum; cbn. rewrite orb_false_r. destruct (Z.leb_spec y x); lia. }
    rewrite Hm in *. split.
    + destruct Hin as [Hin|Hin]; [|cbn; auto].
      rewrite <- Hin. destruct (Z.max_spec x y) as [[_ ->]|[_ ->]]; cbn; auto.
    + intros v [<-|[<-|Hv]].
      * specialize (Hle (Z.max x y) (or_introl eq_refl)). lia.
      * specialize (Hle (Z.max x y) (or_introl eq_refl)). lia.
      * apply Hle. cbn; auto.
Qed.

(** The extremes the program computes for a non-empty integer array. *)
Lemma np_min_uint w (a : ndarray Z) m :
  outcome (np_min (uint w) a) = inr m ->
  In m (data a) /\ forall v, In v (data a) -> m <= v.
Proof.
  unfold np_min. destruct (data a) as [|x t]; cbn; [discriminate|].
  intros H. inversion H. apply fold_minimum_uint.
Qed.

Lemma np_max_uint w (a : ndarray Z) m :
  outcome (np_max (uint w) a) = inr m ->
  In m (data a) /\ forall v, In v (data a) -> v <= m.
Proof.
  unfold np_max. destruct (data a) as [|x t]; cbn; [discriminate|].
  intros H. inversion H. apply fold_maximum_uint.
Qed.

Lemma np_min_intro w (a : ndarray Z) m :
  In m (data a) -> (forall v, In v (data a) -> m <= v) ->
  outcome (np_min (uint w) a) = inr m.
Proof.
  intros Hin Hle. unfold np_min. destruct (data a) as [|x t] eqn:E; [contradiction|].
  cbn. f_equal. destruct (fold_minimum_uint w t x) as [Hi Hl]. cbn zeta in *.
  specialize (Hl m Hin). specialize (Hle _ Hi). lia.
Qed.

Lemma np_max_intro w (a : ndarray Z) m :
  In m (data a) -> (forall v, In v (data a) -> v <= m) ->
  outcome (np_max (uint w) a) = inr m.
Proof.
  intros Hin Hle. unfold np_max. destruct (data a) as [|x t] eqn:E; [contradiction|].
  cbn. f_equal. destruct (fold_maximum_uint w t x) as [Hi Hl]. cbn zeta in *.
  specialize (Hl m Hin). specialize (Hle _ Hi). lia.
Qed.

Lemma level_range (k d : Z) : 0 <= k <= d -> 1 <= d -> 0 <= 255 * k / d <= 255.
Proof.
  intros Hk Hd. split.
  - apply Z.div_pos; lia.
  - apply Z.div_le_upper_bound; nia.
Qed.

(** What the normalisation computes on an 8-bit image with distinct extremes:
    every sample [v] becomes the integer part of [255 * (v - min) / (max - min)]. *)
Lemma min_max_normalization_u8 (ib : Z) (a : ndarray Z) (mn mx : Z) :
  Forall is_u8 (data a) ->
  outcome (np_min uint8 a) = inr mn -> outcome (np_max uint8 a) = inr mx -> mn < mx ->
  min_max_normalization ib uint8 a =
  (normalization_trace (size a), inr (amap (fun v => 255 * (v - mn) / (mx - mn)) a)).
Proof.
  intros Hu Hmn Hmx Hlt.
  destruct (np_min_uint 8 a mn Hmn) as [Imn Lmn].
  destruct (np_max_uint 8 a mx Hmx) as [Imx Lmx].
  rewrite Forall_forall in Hu.
  destruct (data a) as [|x t] eqn:E; [contradiction|].
  rewrite (min_max_normalization_eq ib uint8 a x t E). cbn zeta.
  assert (Emn : fold_left (minimum uint8) t x = mn).
  { unfold np_min in Hmn. rewrite E in Hmn. cbn in Hmn. congruence. }
  assert (Emx : fold_left (maximum uint8) t x = mx).
  { unfold np_max in Hmx. rewrite E in Hmx. cbn in Hmx. congruence. }
  rewrite Emn, Emx.
  set (d := mx - mn).
  set (q := fun v => PrimFloat.div (dt_float uint8 (dt_sub uint8 v mn))
                                   (dt_float uint8 (dt_sub uint8 mx mn))).
  assert (Umn : is_u8 mn) by (apply Hu, Imn).
  assert (Umx : is_u8 mx) by (apply Hu, Imx).
  unfold is_u8 in Umn, Umx.
  assert (Hq : forall v, In v (x :: t) -> q v = quotient (v - mn) d /\ 0 <= v - mn <= d).
  { intros v Hv. specialize (Lmn v Hv). specialize (Lmx v Hv).
    pose proof (Hu v Hv) as Uv. unfold is_u8 in Uv.
    unfold q, quotient, d. cbn [uint8 uint dt_float dt_sub].
    rewrite !Z.mod_small by lia. split; [reflexivity|lia]. }
  assert (Hd : 1 <= d <= 255) by (unfold d; lia).
  assert (Hel : forall y, In y (q x :: map q t) -> exists k, y = quotient k d /\ 0 <= k <= d).
  { intros y Hy. change (q x :: map q t) with (map q (x :: t)) in Hy.
    apply in_map_iff in Hy. destruct Hy as (v & <- & Hv).
    exists (v - mn). apply Hq, Hv. }
  assert (Elo : fold_left (minimum float64) (map q t) (q x) = quotient 0 d).
  { apply fold_left_absorbing.
    - apply minimum_selective.
    - intros y Hy. destruct (Hel y Hy) as (k & -> & Hk).
      destruct (level_facts k d Hk Hd) as (N & L0 & L0' & _).
      destruct (level_facts 0 d ltac:(lia) Hd) as (N0 & _).
      unfold minimum; cbn [float64 dt_le dt_isnan]. rewrite L0, N. cbn [orb].
      split; [reflexivity|].
      destruct (Z.eq_dec k 0) as [->|Hk0].
      + destruct (PrimFloat.leb _ _); reflexivity.
      + rewrite L0' by lia. reflexivity.
    - change (q x :: map q t) with (map q (x :: t)). apply in_map_iff.
      exists mn. split; [|exact Imn].
      rewrite (proj1 (Hq mn Imn)). f_equal. lia. }
  assert (Ehi : fold_left (maximum float64) (map q t) (q x) = quotient d d).
  { apply fold_left_absorbing.
    - apply maximum_selective.
    - intros y Hy. destruct (Hel y Hy) as (k & -> & Hk).
      destruct (level_facts k d Hk Hd) as (N & _ & _ & L1 & L1' & _).
      unfold maximum; cbn [float64 dt_le dt_isnan]. rewrite L1, N. cbn [orb].
      split; [reflexivity|].
      destruct (Z.eq_dec k d) as [->|Hkd].
      + destruct (PrimFloat.leb _ _); reflexivity.
      + rewrite L1' by lia. reflexivity.
    - change (q x :: map q t) with (map q (x :: t)). apply in_map_iff.
      exists mx. split; [|exact Imx].
      rewrite (proj1 (Hq mx Imx)). reflexivity. }
  change (PrimFloat.div (dt_float uint8 (dt_sub uint8 x mn))
                         (dt_float uint8 (dt_sub uint8 mx mn))) with (q x).
  rewrite Elo, Ehi. f_equal. f_equal. unfold amap. f_equal. rewrite E.
  apply map_ext_in. intros v Hv.
  change (PrimFloat.div (dt_float uint8 (dt_sub uint8 v mn))
                         (dt_float uint8 (dt_sub uint8 mx mn))) with (q v).
  destruct (Hq v Hv) as [-> Hk].
  destruct (level_facts (v - mn) d Hk Hd) as (_ & _ & _ & _ & _ & L).
  unfold astype_uint8. unfold normalized_level in L. rewrite L.
  apply Z.mod_small. pose proof (level_range (v - mn) d Hk ltac:(lia)). lia.
Qed.

(* ------------------------------------------------------------------ *)
(** *** Halved images: the outputs of the separator                    *)

Lemma halves_ordered_ok : forallb (fun a => forallb (halves_ordered a) bins) bins = true.
Proof. by_evaluation. Qed.

Lemma halves_subtract_ok : forallb (fun a => forallb (halves_subtract a) bins) bins = true.
Proof. by_evaluation. Qed.

Lemma halves_divide_ok : forallb (fun d => forallb (halves_divide d) bins) bins = true.
Proof. by_evaluation. Qed.

Lemma half_minimum (a b : Z) :
  is_u8 a -> is_u8 b -> minimum float64 (half a) (half b) = half (minimum uint8 a b).
Proof.
  intros Ha Hb.
  pose proof (forall_u8_pairs halves_ordered halves_ordered_ok a b Ha Hb) as C.
  unfold halves_ordered in C. apply andb_true_iff in C. destruct C as [C N].
  apply eqb_prop in C. apply negb_true_iff in N.
  unfold minimum. cbn [float64 uint8 uint dt_le dt_isnan]. rewrite C, N, !orb_false_r.
  destruct (a <=? b); reflexivity.
Qed.

Lemma half_maximum (a b : Z) :
  is_u8 a -> is_u8 b -> maximum float64 (half a) (half b) = half (maximum uint8 a b).
Proof.
  intros Ha Hb.
  pose proof (forall_u8_pairs halves_ordered halves_ordered_ok b a Hb Ha) as C.
  pose proof (forall_u8_pairs halves_ordered halves_ordered_ok a b Ha Hb) as C'.
  unfold halves_ordered in C, C'. apply andb_true_iff in C, C'.
  destruct C as [C _], C' as [_ N].
  apply eqb_prop in C. apply negb_true_iff in N.
  unfold maximum. cbn [float64 uint8 uint dt_le dt_isnan]. rewrite C, N, !orb_false_r.
  destruct (b <=? a); reflexivity.
Qed.

Lemma minimum_u8 a b : is_u8 a -> is_u8 b -> is_u8 (minimum uint8 a b).
Proof. intros. destruct (minimum_selective uint8 a b) as [-> | ->]; assumption. Qed.

Lemma maximum_u8 a b : is_u8 a -> is_u8 b -> is_u8 (maximum uint8 a b).
Proof. intros. destruct (maximum_selective uint8 a b) as [-> | ->]; assumption. Qed.

(** A fold commutes with a map that commutes with its operation. *)
Lemma fold_left_map_commute {A B} (h : A -> B) (f : A -> A -> A) (g : B -> B -> B)
      (P : A -> Prop) l x :
  (forall a b, P a -> P b -> g (h a) (h b) = h (f a b)) ->
  (forall a b, P a -> P b -> P (f a b)) ->
  P x -> Forall P l ->
  fold_left g (map h l) (h x) = h (fold_left f l x).
Proof.
  intros Hc Hp. revert x. induction l as [|y l IH]; intros x Px Pl; cbn; [reflexivity|].
  inversion Pl; subst. rewrite Hc by assumption. apply IH; auto.
Qed.

Lemma half_subtract (a b : Z) :
  is_u8 a -> is_u8 b -> b <= a -> PrimFloat.sub (half a) (half b) = half (a - b).
Proof.
  intros Ha Hb Hle.
  pose proof (forall_u8_pairs halves_subtract halves_subtract_ok a b Ha Hb) as C.
  unfold halves_subtract in C. apply Z.leb_le in Hle. rewrite Hle in C.
  apply FloatAxioms.Leibniz.eqb_spec, C.
Qed.

Lemma half_divide (k d : Z) :
  is_u8 k -> is_u8 d -> k <= d -> PrimFloat.div (half k) (half d) = quotient k d.
Proof.
  intros Hk Hd Hle.
  pose proof (forall_u8_pairs halves_divide halves_divide_ok d k Hd Hk) as C.
  unfold halves_divide in C. apply Z.leb_le in Hle. rewrite Hle in C.
  apply FloatAxioms.Leibniz.eqb_spec, C.
Qed.

(** Normalising a halved 8-bit image is normalising the image: the
    float64 differences and quotients of the halves are those of the
    bytes. *)
Lemma min_max_normalization_halved (ib : Z) (a : ndarray Z) :
  Forall is_u8 (data a) ->
  min_max_normalization ib float64 (amap half a) = min_max_normalization ib uint8 a.
Proof.
  intros Hu.
  destruct (data a) as [|x t] eqn:E.
  - unfold min_max_normalization, np_min, amap. cbn [data]. rewrite E. reflexivity.
  - assert (E' : data (amap half a) = half x :: map half t) by (cbn; rewrite E; reflexivity).
    rewrite (min_max_normalization_eq ib float64 (amap half a) _ _ E').
    rewrite (min_max_normalization_eq ib uint8 a x t E). cbn zeta.
    inversion Hu as [|? ? Ux Ut]; subst.
    rewrite (fold_left_map_commute half (minimum uint8) (minimum float64) is_u8 t x
               half_minimum minimum_u8 Ux Ut).
    rewrite (fold_left_map_commute half (maximum uint8) (maximum float64) is_u8 t x
               half_maximum maximum_u8 Ux Ut).
    destruct (fold_minimum_uint 8 t x) as [Imn Lmn].
    destruct (fold_maximum_uint 8 t x) as [Imx Lmx]. cbn zeta in *.
    change (uint 8) with uint8 in *.
    set (mn := fold_left (minimum uint8) t x) in *.
    set (mx := fold_left (maximum uint8) t x) in *.
    rewrite Forall_forall in Hu.
    assert (Umn : is_u8 mn) by (apply Hu, Imn).
    assert (Umx : is_u8 mx) by (apply Hu, Imx).
    assert (Hmm : mn <= mx) by (apply Lmn, Imx).
    set (qf := fun v => PrimFloat.div (dt_float float64 (dt_sub float64 v (half mn)))
                                     (dt_float float64 (dt_sub float64 (half mx) (half mn)))).
    set (qu := fun v => PrimFloat.div (dt_float uint8 (dt_sub uint8 v mn))
                                     (dt_float uint8 (dt_sub uint8 mx mn))).
    assert (Hq : forall v, In v (x :: t) -> qf (half v) = qu v).
    { intros v Hv. pose proof (Hu v Hv) as Uv.
      specialize (Lmn v Hv). specialize (Lmx v Hv). unfold is_u8 in *.
      unfold qf, qu. cbn [float64 uint8 uint dt_float dt_sub].
      rewrite !half_subtract by (unfold is_u8; lia).
      rewrite !Z.mod_small by lia.
      apply half_divide; unfold is_u8; lia. }
    change (PrimFloat.div (dt_float float64 (dt_sub float64 (half x) (half mn)))
              (dt_float float64 (dt_sub float64 (half mx) (half mn)))) with (qf (half x)).
    change (PrimFloat.div (dt_float uint8 (dt_sub uint8 x mn))
              (dt_float uint8 (dt_sub uint8 mx mn))) with (qu x).
    rewrite map_map.
    rewrite (map_ext_in (fun v => qf (half v)) qu t) by (intros v Hv; apply Hq; cbn; auto).
    rewrite (Hq x) by (cbn; auto).
    f_equal. f_equal. unfold amap. cbn [shape data]. f_equal.
    rewrite map_map. rewrite E. apply map_ext_in. intros v Hv.
    fold (qf (half v)). fold (qu v). rewrite (Hq v Hv). reflexivity.
Qed.

(** So the enhancer normalises the two outputs of the separator as it
    would the saturated sum and the saturated difference themselves. *)
Lemma min_max_normalization_after_dixon (ib : Z) (a b : ndarray Z) w f :
  shape a = shape b ->
  outcome (dixon_algorithm a b) = inr (w, f) ->
  min_max_normalization ib float64 w =
    min_max_normalization ib uint8 (amap2 (fun x y => saturate_u8 (x + y)) a b) /\
  min_max_normalization ib float64 f =
    min_max_normalization ib uint8 (amap2 (fun x y => saturate_u8 (x - y)) a b).
Proof.
  intros Hs Ho.
  rewrite (dixon_algorithm_eq a b Hs (proj2 (dixon_algorithm_returned a b w f Ho))) in Ho.
  cbn in Ho. inversion Ho; subst w f; clear Ho.
  split; apply min_max_normalization_halved; apply Forall_forall; intros z Hz;
    apply In_zip_with in Hz; destruct Hz as (x & y & _ & _ & ->);
    apply saturate_u8_range.
Qed.

(** An image that is not constant has a minimum strictly below its maximum. *)
Lemma nonconstant_extremes (a : ndarray Z) :
  ~ constant_image a ->
  exists mn mx,
    outcome (np_min uint8 a) = inr mn /\ outcome (np_max uint8 a) = inr mx /\ mn < mx.
Proof.
  intros Hnc.
  destruct (data a) as [|x t] eqn:E.
  - exfalso. apply Hnc. exists 0. rewrite E. constructor.
  - assert (Hmn : outcome (np_min uint8 a) = inr (fold_left (minimum uint8) t x))
      by (unfold np_min; rewrite E; reflexivity).
    assert (Hmx : outcome (np_max uint8 a) = inr (fold_left (maximum uint8) t x))
      by (unfold np_max; rewrite E; reflexivity).
    eexists _, _. split; [exact Hmn|]. split; [exact Hmx|].
    destruct (np_min_uint 8 a _ Hmn) as [Imn Lmn].
    destruct (np_max_uint 8 a _ Hmx) as [Imx Lmx].
    set (mn := fold_left (minimum uint8) t x) in *.
    set (mx := fold_left (maximum uint8) t x) in *.
    destruct (Z.lt_ge_cases mn mx) as [|Hge]; [assumption|].
    exfalso. apply Hnc. exists mn. apply Forall_forall. intros v Hv.
    specialize (Lmn v Hv). specialize (Lmx v Hv). lia.
Qed.

(** The normalised image: 8-bit, of the same shape, with 0 and 255 as its
    extremes. *)
Lemma normalized_u8_extremes (a : ndarray Z) (mn mx : Z) :
  u8_image a ->
  outcome (np_min uint8 a) = inr mn -> outcome (np_max uint8 a) = inr mx -> mn < mx ->
  let y := amap (fun v => 255 * (v - mn) / (mx - mn)) a in
  u8_image y /\ outcome (np_min uint8 y) = inr 0 /\ outcome (np_max uint8 y) = inr 255.
Proof.
  intros [Hw Hu] Hmn Hmx Hlt y.
  destruct (np_min_uint 8 a mn Hmn) as [Imn Lmn].
  destruct (np_max_uint 8 a mx Hmx) as [Imx Lmx].
  assert (Hr : forall z, In z (data y) -> 0 <= z <= 255).
  { intros z Hz. unfold y, amap in Hz. cbn [data] in Hz. apply in_map_iff in Hz.
    destruct Hz as (v & <- & Hv). specialize (Lmn v Hv). specialize (Lmx v Hv).
    apply level_range; lia. }
  split; [split|split].
  - unfold well_shaped, size, y, amap in *. cbn [data shape]. rewrite length_map. exact Hw.
  - apply Forall_forall. exact Hr.
  - apply np_min_intro.
    + unfold y, amap. cbn [data]. apply in_map_iff. exists mn. split; [|exact Imn].
      rewrite Z.sub_diag, Z.mul_0_r. apply Z.div_0_l. lia.
    + intros v Hv. apply Hr, Hv.
  - apply np_max_intro.
    + unfold y, amap. cbn [data]. apply in_map_iff. exists mx. split; [|exact Imx].
      apply Z.div_mul. lia.
    + intros v Hv. apply Hr, Hv.
Qed.

(* ================================================================== *)
(** ** float64 quotients of integers                                   *)
(* ================================================================== *)

(** The normalisation of an unsigned integer image divides two integers
    in float64.  What follows derives, from the IEEE specification of the
    Standard Library, the facts it rests on for integers below 2^53: the
    conversion is exact, [0 / d] is 0, [d / d] is 1, and [k / d] lies in
    the unit interval when [k] is at most [d]. *)

(** Number of binary digits. *)


Lemma Zdigits2_nonneg m : 0 <= Zdigits2 m.
Proof. destruct m; cbn; lia. Qed.


(** Right shifts of a mantissa. *)









(** Integers as floats. *)





(** Quotients of integers. *)

Lemma div_eucl_eq a b : Z.div_eucl a b = (a / b, a mod b).
Proof. unfold Z.div, Z.modulo. destruct (Z.div_eucl a b). reflexivity. Qed.





Lemma new_location_0 n : new_location n 0 = loc_Exact.
Proof. unfold new_location. destruct (Z.even n); reflexivity. Qed.














Example scaled_level_of_16_bit_samples :
  scaled_level 0 2000 = Some 0 /\ scaled_level 1000 2000 = Some 127 /\
  scaled_level 2000 2000 = Some 255 /\ scaled_level 3 8 = Some 95.
Proof. repeat split; reflexivity. Qed.

(* ================================================================== *)
(** ** Normalisation of unsigned integer images                        *)
(* ================================================================== *)





(* ================================================================== *)
(** ** Levels of samples of up to 16 bits                              *)
(* ================================================================== *)









(** The 16-bit image of the example again, by the formula. *)
Example levels_of_16_bit_samples :
  scaled_level 1000 2000 = Some (255 * 1000 / 2000) /\
  scaled_level 13107 65535 = Some 51 /\ scaled_level 13106 65535 = Some 50.
Proof. vm_compute. repeat split; reflexivity. Qed.


(** An 8-bit image that attains 0 and 255 is a fixed point of the
    normalisation, whatever produced it. *)
Lemma min_max_normalization_fixed_point (ib : Z) (y : ndarray Z) :
  Forall is_u8 (data y) -> In 0 (data y) -> In 255 (data y) ->
  outcome (min_max_normalization ib uint8 y) = inr y.
Proof.
  intros Hu H0 H255.
  assert (Hmn : outcome (np_min uint8 y) = inr 0).
  { apply np_min_intro; [exact H0|]. rewrite Forall_forall in Hu.
    intros v Hv. apply Hu in Hv. unfold is_u8 in Hv. lia. }
  assert (Hmx : outcome (np_max uint8 y) = inr 255).
  { apply np_max_intro; [exact H255|]. rewrite Forall_forall in Hu.
    intros v Hv. apply Hu in Hv. unfold is_u8 in Hv. lia. }
  rewrite (min_max_normalization_u8 ib y 0 255 Hu Hmn Hmx ltac:(lia)).
  cbn [outcome snd]. f_equal.
  destruct y as [sh l]. unfold amap. cbn [shape data]. f_equal.
  rewrite <- (map_id l) at 2. apply map_ext. intros v.
  rewrite Z.sub_0_r. change (255 - 0) with 255. rewrite Z.mul_comm. apply Z.div_mul. lia.
Qed.

(* ================================================================== *)
(** ** Normalisation of any image: the extreme quotients               *)
(* ================================================================== *)

Lemma classify_nan X : classify X = not_a_number -> X = S754_nan.
Proof. destruct X as [s|s| |s m e]; try destruct s; cbn; congruence. Qed.

Lemma SFcompare_refl X : classify X <> not_a_number -> SFcompare X X = Some Eq.
Proof.
  destruct X as [s|s| |s m e]; cbn; try congruence.
  - destruct s; reflexivity.
  - intros _. destruct s; rewrite Z.compare_refl, Pos.compare_cont_refl; reflexivity.
Qed.

Lemma SFcompare_classes X Y :
  classify X = at_most_zero -> classify Y = above_zero ->
  SFcompare X Y = Some Lt /\ SFcompare Y X = Some Gt.
Proof.
  destruct X as [s|s| |s m e], Y as [s'|s'| |s' m' e'];
    try destruct s; try destruct s'; cbn; intros; try discriminate; auto.
Qed.

Lemma is_nan_class (x : float) :
  PrimFloat.is_nan x = match class_of x with not_a_number => true | _ => false end.
Proof.
  unfold PrimFloat.is_nan, class_of. rewrite FloatAxioms.eqb_spec. unfold SFeqb.
  destruct (Prim2SF x) as [s|s| |s m e] eqn:E.
  - reflexivity.
  - destruct s; reflexivity.
  - reflexivity.
  - rewrite SFcompare_refl by (destruct s; cbn; congruence). destruct s; reflexivity.
Qed.

Lemma class_nan_Prim2SF (x : float) : class_of x = not_a_number -> Prim2SF x = S754_nan.
Proof. apply classify_nan. Qed.

(** A NaN operand wins in [np.minimum] and [np.maximum]. *)
Lemma minimum_nan (a b : float) :
  class_of a = not_a_number \/ class_of b = not_a_number ->
  class_of (minimum float64 a b) = not_a_number.
Proof.
  intros H. unfold minimum. cbn [float64 dt_le dt_isnan].
  rewrite is_nan_class, FloatAxioms.leb_spec.
  destruct (class_of a) eqn:Ca.
  - rewrite orb_true_r. exact Ca.
  - destruct H as [H|H]; [discriminate|]. rewrite orb_false_r.
    rewrite (class_nan_Prim2SF b H). unfold SFleb.
    replace (SFcompare (Prim2SF a) S754_nan) with (@None comparison)
      by (destruct (Prim2SF a); reflexivity).
    exact H.
  - destruct H as [H|H]; [discriminate|]. rewrite orb_false_r.
    rewrite (class_nan_Prim2SF b H). unfold SFleb.
    replace (SFcompare (Prim2SF a) S754_nan) with (@None comparison)
      by (destruct (Prim2SF a); reflexivity).
    exact H.
Qed.

Lemma maximum_nan (a b : float) :
  class_of a = not_a_number \/ class_of b = not_a_number ->
  class_of (maximum float64 a b) = not_a_number.
Proof.
  intros H. unfold maximum. cbn [float64 dt_le dt_isnan].
  rewrite is_nan_class, FloatAxioms.leb_spec.
  destruct (class_of a) eqn:Ca.
  - rewrite orb_true_r. exact Ca.
  - destruct H as [H|H]; [discriminate|]. rewrite orb_false_r.
    rewrite (class_nan_Prim2SF b H). cbn. exact H.
  - destruct H as [H|H]; [discriminate|]. rewrite orb_false_r.
    rewrite (class_nan_Prim2SF b H). cbn. exact H.
Qed.

Lemma fold_nan (f : float -> float -> float) (t : list float) (x : float) :
  (forall a b, class_of a = not_a_number \/ class_of b = not_a_number ->
               class_of (f a b) = not_a_number) ->
  Exists (fun v => class_of v = not_a_number) (x :: t) ->
  class_of (fold_left f t x) = not_a_number.
Proof.
  intros Hf. revert x. induction t as [|y t IH]; intros x H; cbn [fold_left].
  - apply Exists_cons in H. destruct H as [Hx|Ht]; [exact Hx|inversion Ht].
  - apply IH. apply Exists_cons. apply Exists_cons in H. destruct H as [Hx|Ht].
    + left. apply Hf. left. exact Hx.
    + apply Exists_cons in Ht. destruct Ht as [Hy|Ht'].
      * left. apply Hf. right. exact Hy.
      * right. exact Ht'.
Qed.

(** Without NaN the smaller of two floats is at most zero as soon as one
    of them is, and the larger is above zero as soon as one of them is. *)
Lemma minimum_low (a b : float) :
  class_of a <> not_a_number -> class_of b <> not_a_number ->
  class_of a = at_most_zero \/ class_of b = at_most_zero ->
  class_of (minimum float64 a b) = at_most_zero.
Proof.
  intros Na Nb H. unfold minimum. cbn [float64 dt_le dt_isnan].
  rewrite is_nan_class, FloatAxioms.leb_spec. unfold SFleb.
  unfold class_of in *.
  destruct (classify (Prim2SF a)) eqn:Ca; [congruence| |];
    destruct (classify (Prim2SF b)) eqn:Cb; try congruence.
  - destruct (_ || _); assumption.
  - destruct (SFcompare_classes _ _ Ca Cb) as [-> _]. cbn. exact Ca.
  - destruct (SFcompare_classes _ _ Cb Ca) as [_ ->]. cbn. exact Cb.
  - destruct H; discriminate.
Qed.

Lemma maximum_high (a b : float) :
  class_of a <> not_a_number -> class_of b <> not_a_number ->
  class_of a = above_zero \/ class_of b = above_zero ->
  class_of (maximum float64 a b) = above_zero.
Proof.
  intros Na Nb H. unfold maximum. cbn [float64 dt_le dt_isnan].
  rewrite is_nan_class, FloatAxioms.leb_spec. unfold SFleb.
  unfold class_of in *.
  destruct (classify (Prim2SF a)) eqn:Ca; [congruence| |];
    destruct (classify (Prim2SF b)) eqn:Cb; try congruence.
  - destruct H; discriminate.
  - destruct (SFcompare_classes _ _ Ca Cb) as [_ ->]. cbn. exact Cb.
  - destruct (SFcompare_classes _ _ Cb Ca) as [-> _]. cbn. exact Ca.
  - destruct (_ || _); assumption.
Qed.

Lemma fold_class (f : float -> float -> float) (k : sign_class) (t : list float) (x : float) :
  (forall a b, f a b = a \/ f a b = b) ->
  (forall a b, class_of a <> not_a_number -> class_of b <> not_a_number ->
               class_of a = k \/ class_of b = k -> class_of (f a b) = k) ->
  Forall (fun v => class_of v <> not_a_number) (x :: t) ->
  Exists (fun v => class_of v = k) (x :: t) ->
  class_of (fold_left f t x) = k.
Proof.
  intros Hsel Hf. revert x. induction t as [|y t IH]; intros x Hall H; cbn [fold_left].
  - apply Exists_cons in H. destruct H as [Hx|Ht]; [exact Hx|inversion Ht].
  - apply Forall_cons_iff in Hall. destruct Hall as [Nx Hall'].
    apply Forall_cons_iff in Hall'. destruct Hall' as [Ny Hall''].
    apply IH.
    + constructor; [|exact Hall'']. destruct (Hsel x y) as [-> | ->]; assumption.
    + apply Exists_cons. apply Exists_cons in H. destruct H as [Hx|Ht].
      * left. apply Hf; auto.
      * apply Exists_cons in Ht. destruct Ht as [Hy|Ht'].
        -- left. apply Hf; auto.
        -- right. exact Ht'.
Qed.

Lemma fold_selective {A} (f : A -> A -> A) (t : list A) (x : A) :
  (forall a b, f a b = a \/ f a b = b) -> In (fold_left f t x) (x :: t).
Proof.
  intros Hsel. revert x. induction t as [|y t IH]; intros x; cbn [fold_left].
  - left. reflexivity.
  - destruct (IH (f x y)) as [E|Hin].
    + rewrite <- E. destruct (Hsel x y) as [-> | ->]; cbn; auto.
    + right. right. exact Hin.
Qed.

(** The interpolation between break points that are NaN gives NaN. *)
Lemma interp1_nan_breaks (lo hi x : float) :
  class_of lo = not_a_number -> class_of hi = not_a_number ->
  Prim2SF (interp1 lo hi (of_Z 0) (of_Z 255) x) = S754_nan.
Proof.
  intros Hlo Hhi. apply class_nan_Prim2SF in Hlo, Hhi.
  unfold interp1. rewrite is_nan_class.
  destruct (class_of x) eqn:Cx; [apply class_nan_Prim2SF, Cx| |].
  all: rewrite !FloatAxioms.ltb_spec, FloatAxioms.leb_spec, FloatAxioms.eqb_spec;
    rewrite Hlo, Hhi; unfold SFltb, SFleb, SFeqb;
    replace (SFcompare (Prim2SF x) S754_nan) with (@None comparison)
      by (destruct (Prim2SF x); reflexivity);
    cbn [SFcompare];
    set (slope := PrimFloat.div (PrimFloat.sub (of_Z 255) (of_Z 0)) (PrimFloat.sub hi lo));
    assert (Hs : Prim2SF slope = S754_nan)
      by (unfold slope; rewrite FloatAxioms.div_spec, (FloatAxioms.sub_spec hi lo), Hlo, Hhi;
          cbn [SF64sub SFsub]; unfold SF64div, SFdiv;
          destruct (Prim2SF (PrimFloat.sub (of_Z 255) (of_Z 0))); reflexivity);
    assert (Hr : forall u v, Prim2SF (PrimFloat.add (PrimFloat.mul slope u) v) = S754_nan)
      by (intros u v; rewrite FloatAxioms.add_spec, FloatAxioms.mul_spec, Hs;
          reflexivity);
    rewrite (is_nan_Prim2SF _ (Hr _ _));
    rewrite (is_nan_Prim2SF _ (Hr (PrimFloat.sub x hi) (of_Z 255)));
    change (PrimFloat.eqb (of_Z 0) (of_Z 255)) with false; cbn [andb]; apply Hr.
Qed.

(** With the smallest quotient at most zero and the largest above zero,
    the smallest is sent to 0 and the largest to 255. *)
Lemma interp1_lowest (lo hi : float) :
  class_of lo = at_most_zero -> class_of hi = above_zero ->
  interp1 lo hi (of_Z 0) (of_Z 255) lo = of_Z 0.
Proof.
  intros Hlo Hhi. unfold interp1. rewrite is_nan_class, Hlo.
  rewrite !FloatAxioms.ltb_spec, FloatAxioms.leb_spec, FloatAxioms.eqb_spec.
  unfold SFltb, SFleb, SFeqb.
  destruct (SFcompare_classes _ _ Hlo Hhi) as [_ ->].
  rewrite SFcompare_refl by (unfold class_of in Hlo; congruence). reflexivity.
Qed.

Lemma interp1_highest (lo hi : float) :
  class_of lo = at_most_zero -> class_of hi = above_zero ->
  interp1 lo hi (of_Z 0) (of_Z 255) hi = of_Z 255.
Proof.
  intros Hlo Hhi. unfold interp1. rewrite is_nan_class, Hhi.
  rewrite !FloatAxioms.ltb_spec, FloatAxioms.leb_spec.
  unfold SFltb, SFleb.
  destruct (SFcompare_classes _ _ Hlo Hhi) as [_ ->].
  rewrite SFcompare_refl by (unfold class_of in Hhi; congruence). reflexivity.
Qed.

(** A finite non-zero float divided by itself is 1. *)
Lemma SFdiv_self (s : bool) (p : positive) (e : Z) :
  SFdiv prec emax (S754_finite s p e) (S754_finite s p e)
  = S754_finite false 4503599627370496 (-52).
Proof.
  unfold SFdiv, SFdiv_core_binary.
  replace (Zdigits2 (Zpos p) + e - (Zdigits2 (Zpos p) + e)) with 0 by lia.
  replace (e - e) with 0 by lia.
  change (Z.min (fexp prec emax 0) 0) with (-53). change (0 - -53) with 53.
  cbv iota. rewrite Z.shiftl_mul_pow2 by lia. rewrite div_eucl_eq.
  rewrite Z.mul_comm, Z.div_mul by lia. rewrite Z.mod_mul by lia.
  rewrite new_location_0. rewrite xorb_nilpotent. reflexivity.
Qed.

(** The quotient that the largest sample gets is NaN or 1, the quotient of
    the smallest is NaN or zero. *)
Lemma self_quotient_class (X : float) :
  class_of (PrimFloat.div X X) <> not_a_number ->
  class_of (PrimFloat.div X X) = above_zero /\
  exists s p e, Prim2SF X = S754_finite s p e.
Proof.
  unfold class_of. rewrite FloatAxioms.div_spec. unfold SF64div.
  destruct (Prim2SF X) as [s|s| |s p e].
  - destruct s; cbn; congruence.
  - destruct s; cbn; congruence.
  - cbn; congruence.
  - rewrite SFdiv_self. intros _. split; [reflexivity|]. eauto.
Qed.

Lemma zero_quotient_class (N X : float) s p e :
  Prim2SF N = S754_zero false -> Prim2SF X = S754_finite s p e ->
  class_of (PrimFloat.div N X) = at_most_zero.
Proof.
  intros HN HX. unfold class_of. rewrite FloatAxioms.div_spec, HN, HX. reflexivity.
Qed.

Lemma nan_quotient_class (N X : float) :
  Prim2SF N = S754_nan -> class_of (PrimFloat.div N X) = not_a_number.
Proof.
  intros HN. unfold class_of. rewrite FloatAxioms.div_spec, HN. reflexivity.
Qed.

(** In every dtype of the program the difference of a sample with itself
    converts to +0, or to NaN (an infinite or NaN float64 sample). *)
Lemma self_difference {A} (D : dtype A) (v : A) :
  known_dtype A D ->
  Prim2SF (dt_float D (dt_sub D v v)) = S754_zero false \/
  Prim2SF (dt_float D (dt_sub D v v)) = S754_nan.
Proof.
  intros K. destruct K as [w|].
  - left. cbn [uint dt_float dt_sub]. rewrite Z.sub_diag, Zmod_0_l. reflexivity.
  - cbn [float64 dt_float dt_sub]. rewrite FloatAxioms.sub_spec.
    destruct (Prim2SF v) as [s|s| |s m e].
    + left. destruct s; reflexivity.
    + right. destruct s; reflexivity.
    + right. reflexivity.
    + left. unfold SF64sub, SFsub. rewrite Z.min_id. unfold shl_align. rewrite Z.sub_diag.
      cbn [fst]. replace (cond_Zopp s (Zpos m) - cond_Zopp s (Zpos m)) with 0 by lia.
      reflexivity.
Qed.

Lemma extreme_quotients {A} (D : dtype A) (mn mx : A) :
  known_dtype A D ->
  let q := fun v => PrimFloat.div (dt_float D (dt_sub D v mn)) (dt_float D (dt_sub D mx mn)) in
  class_of (q mn) <> not_a_number -> class_of (q mx) <> not_a_number ->
  class_of (q mn) = at_most_zero /\ class_of (q mx) = above_zero.
Proof.
  intros K q Nmn Nmx. subst q. cbn beta in *.
  destruct (self_quotient_class _ Nmx) as (Hx & s & p & e & HX).
  split; [|exact Hx].
  destruct (self_difference D mn K) as [H0|Hn].
  - apply (zero_quotient_class _ _ s p e H0 HX).
  - exfalso. apply Nmn. apply nan_quotient_class, Hn.
Qed.

Lemma class_dec (l : list float) :
  Exists (fun v => class_of v = not_a_number) l \/
  Forall (fun v => class_of v <> not_a_number) l.
Proof.
  induction l as [|x l [IH|IH]].
  - right. constructor.
  - left. right. exact IH.
  - destruct (class_of x) eqn:C.
    + left. left. exact C.
    + right. constructor; [congruence|exact IH].
    + right. constructor; [congruence|exact IH].
Qed.

Lemma astype_uint8_0 (ib : Z) : astype_uint8 ib (of_Z 0) = 0.
Proof. reflexivity. Qed.

Lemma astype_uint8_255 (ib : Z) : astype_uint8 ib (of_Z 255) = 255.
Proof. reflexivity. Qed.

Lemma astype_uint8_is_u8 (ib : Z) (f : float) : is_u8 ib -> is_u8 (astype_uint8 ib f).
Proof.
  intros Hib. unfold astype_uint8. destruct (truncate f) as [z|]; [|exact Hib].
  unfold is_u8. pose proof (Z.mod_pos_bound z 256 ltac:(lia)). lia.
Qed.

(** The result of normalising a non-empty image of any dtype of the
    program: the image filled with the invalid-conversion byte (some
    quotient is NaN, as for a constant image), or an 8-bit image that
    attains 0 and 255. *)
Lemma min_max_normalization_result {A} (ib : Z) (D : dtype A) (a : ndarray A) :
  known_dtype A D -> is_u8 ib -> well_shaped a -> data a <> [] ->
  exists y,
    min_max_normalization ib D a = (normalization_trace (size a), inr y) /\
    shape y = shape a /\ u8_image y /\
    (y = full (shape a) ib \/ (In 0 (data y) /\ In 255 (data y))).
Proof.
  intros K Hib Wa Hne.
  destruct (data a) as [|x t] eqn:E; [congruence|clear Hne].
  pose proof (min_max_normalization_eq ib D a x t E) as Eq. cbn zeta in Eq.
  set (mn := fold_left (minimum D) t x) in *.
  set (mx := fold_left (maximum D) t x) in *.
  set (q := fun v => PrimFloat.div (dt_float D (dt_sub D v mn))
                                   (dt_float D (dt_sub D mx mn))) in *.
  set (lo := fold_left (minimum float64) (map q t) (q x)) in *.
  set (hi := fold_left (maximum float64) (map q t) (q x)) in *.
  eexists. split; [exact Eq|]. split; [reflexivity|].
  assert (U : u8_image (amap (fun v => astype_uint8 ib (interp1 lo hi (of_Z 0) (of_Z 255) (q v))) a)).
  { split.
    - unfold well_shaped, size in *. cbn [amap shape data]. rewrite length_map. exact Wa.
    - cbn [amap data]. apply Forall_forall. intros z Hz. apply in_map_iff in Hz.
      destruct Hz as (v & <- & _). apply astype_uint8_is_u8, Hib. }
  split; [exact U|].
  assert (Imn : In mn (x :: t)) by (apply fold_selective, minimum_selective).
  assert (Imx : In mx (x :: t)) by (apply fold_selective, maximum_selective).
  assert (Ilo : In lo (map q (x :: t)))
    by (apply (fold_selective (minimum float64) (map q t) (q x)), minimum_selective).
  assert (Ihi : In hi (map q (x :: t)))
    by (apply (fold_selective (maximum float64) (map q t) (q x)), maximum_selective).
  destruct (class_dec (map q (x :: t))) as [Hn|Hf].
  - left.
    assert (Clo : class_of lo = not_a_number) by (apply fold_nan; [apply minimum_nan|exact Hn]).
    assert (Chi : class_of hi = not_a_number) by (apply fold_nan; [apply maximum_nan|exact Hn]).
    unfold amap, full. f_equal. unfold well_shaped, size in Wa. rewrite <- Wa.
    rewrite E. clear - Clo Chi.
    induction (x :: t) as [|v l IH]; cbn [map repeat List.length]; [reflexivity|].
    rewrite IH. f_equal. apply astype_uint8_nan, interp1_nan_breaks; assumption.
  - right.
    assert (Cq : class_of (q mn) = at_most_zero /\ class_of (q mx) = above_zero).
    { rewrite Forall_forall in Hf.
      apply (extreme_quotients D mn mx K).
      - apply (Hf (q mn)), (in_map q _ _ Imn).
      - apply (Hf (q mx)), (in_map q _ _ Imx). }
    destruct Cq as [Cmn Cmx].
    assert (Clo : class_of lo = at_most_zero).
    { apply (fold_class (minimum float64) at_most_zero (map q t) (q x)).
      - apply minimum_selective.
      - apply minimum_low.
      - exact Hf.
      - apply Exists_exists. exists (q mn). split; [apply (in_map q _ _ Imn)|exact Cmn]. }
    assert (Chi : class_of hi = above_zero).
    { apply (fold_class (maximum float64) above_zero (map q t) (q x)).
      - apply maximum_selective.
      - apply maximum_high.
      - exact Hf.
      - apply Exists_exists. exists (q mx). split; [apply (in_map q _ _ Imx)|exact Cmx]. }
    cbn [amap data]. rewrite E. split.
    + apply in_map_iff in Ilo. destruct Ilo as (v & Hv & Iv).
      apply in_map_iff. exists v. split; [|exact Iv].
      rewrite Hv, (interp1_lowest lo hi Clo Chi). apply astype_uint8_0.
    + apply in_map_iff in Ihi. destruct Ihi as (v & Hv & Iv).
      apply in_map_iff. exists v. split; [|exact Iv].
      rewrite Hv, (interp1_highest lo hi Clo Chi). apply astype_uint8_255.
Qed.

(** Whatever the image, its normalisation is a fixed point of the
    normalisation. *)
Lemma min_max_normalization_twice {A} (ib : Z) (D : dtype A) (a : ndarray A) :
  known_dtype A D -> is_u8 ib -> well_shaped a -> data a <> [] ->
  exists y,
    outcome (min_max_normalization ib D a) = inr y /\
    shape y = shape a /\
    outcome (min_max_normalization ib uint8 y) = inr y.
Proof.
  intros K Hib Wa Hne.
  destruct (min_max_normalization_result ib D a K Hib Wa Hne) as (y & Ey & Sy & Uy & Hy).
  exists y. split; [rewrite Ey; reflexivity|]. split; [exact Sy|].
  destruct Hy as [Hy|[H0 H255]].
  - assert (Hsz : size a <> 0%nat).
    { unfold well_shaped in Wa. rewrite <- Wa. destruct (data a); cbn; congruence. }
    rewrite (constant_image_normalizes_to_invalid_byte ib uint8 y ib).
    + cbn [outcome snd]. rewrite Sy. symmetry. f_equal. exact Hy.
    + apply (known_uint 8).
    + apply Uy.
    + subst y. cbn [full data]. unfold size in Hsz.
      destruct (fst (shape a) * snd (shape a))%nat; cbn; congruence.
    + subst y. cbn [full data]. apply Forall_forall. intros z Hz.
      apply repeat_spec in Hz. congruence.
  - apply min_max_normalization_fixed_point; [apply Uy|exact H0|exact H255].
Qed.

Lemma known_dtype_inhabited {A} (D : dtype A) : known_dtype A D -> inhabited A.
Proof. intros K. destruct K; constructor; [exact 0|exact PrimFloat.zero]. Qed.

(** C6.  Normalising the normalisation of a non-constant image gives the
    same image back, sample for sample, whatever the dtype of the image
    (unsigned integers of any width, or float64 as the separator outputs
    it).  The byte stored for an invalid conversion is a byte. *)
Theorem min_max_normalization_idempotent {A} (ib : Z) (D : dtype A) (a : ndarray A) :
  known_dtype A D -> is_u8 ib -> well_shaped a -> ~ constant_image a ->
  exists y,
    outcome (min_max_normalization ib D a) = inr y /\
    shape y = shape a /\
    outcome (min_max_normalization ib uint8 y) = inr y.
Proof.
  intros K Hib Wa Hnc.
  assert (Hne : data a <> []).
  { intros E. apply Hnc. destruct (known_dtype_inhabited D K) as [v].
    exists v. rewrite E. constructor. }
  exact (min_max_normalization_twice ib D a K Hib Wa Hne).
Qed.

Lemma nonconstant_intro (a : ndarray Z) (u v : Z) :
  In u (data a) -> In v (data a) -> u <> v -> ~ constant_image a.
Proof.
  intros Hu Hv Hne [c Hc]. rewrite Forall_forall in Hc.
  apply Hne. rewrite <- (Hc u Hu), <- (Hc v Hv). reflexivity.
Qed.


(** The 16-bit image (1000, 3000, 2000) normalises to (0, 255, 127). *)
Example normalization_of_16_bit_samples :
  outcome (min_max_normalization 0 uint16 (mk_ndarray (1, 3)%nat [1000; 3000; 2000]))
  = inr (mk_ndarray (1, 3)%nat [0; 255; 127]).
Proof. vm_compute. reflexivity. Qed.


Lemma min_max_normalization_idempotent_witness :
  let a := mk_ndarray (2, 2)%nat [1200; 40000; 1300; 7700] in
  exists y,
    outcome (min_max_normalization 0 uint16 a) = inr y /\
    shape y = shape a /\
    outcome (min_max_normalization 0 uint8 y) = inr y.
Proof.
  intros a.
  apply (min_max_normalization_idempotent 0 uint16 a).
  - apply (known_uint 16).
  - unfold is_u8. lia.
  - reflexivity.
  - apply (nonconstant_intro a 1200 40000); cbn; auto. discriminate.
Defined.

(** The same on a float64 image with a negative and a fractional sample. *)
Example normalization_twice_of_floats :
  let a := mk_ndarray (1, 4)%nat [(-2.5)%float; 0.5%float; 40%float; 7.25%float] in
  outcome (min_max_normalization 0 float64 a) = inr (mk_ndarray (1, 4)%nat [0; 18; 255; 58]) /\
  outcome (min_max_normalization 0 uint8 (mk_ndarray (1, 4)%nat [0; 18; 255; 58]))
  = inr (mk_ndarray (1, 4)%nat [0; 18; 255; 58]).
Proof. vm_compute. split; reflexivity. Qed.

(** The counterexample, evaluated. *)
Example normalization_of_0_3_8 :
  outcome (min_max_normalization 0 uint8 (mk_ndarray (1, 3)%nat [0; 3; 8]))
  = inr (mk_ndarray (1, 3)%nat [0; 95; 255]).
Proof. vm_compute. reflexivity. Qed.

(* ================================================================== *)
(** ** binary32 rounding is monotone                                   *)
(* ================================================================== *)

Lemma rne_shr_bounds n k : 0 <= k -> n / 2 ^ k <= rne_shr n k <= n / 2 ^ k + 1.
Proof.
  intros Hk. unfold rne_shr.
  destruct (2 * (n mod 2 ^ k) <? 2 ^ k); [lia|].
  destruct (2 ^ k <? 2 * (n mod 2 ^ k)); [lia|].
  destruct (Z.even (n / 2 ^ k)); lia.
Qed.

Lemma rne_shr_mono n n' k : 0 <= k -> n <= n' -> rne_shr n k <= rne_shr n' k.
Proof.
  intros Hk Hn.
  assert (HP : 0 < 2 ^ k) by (apply Z.pow_pos_nonneg; lia).
  pose proof (Z.div_le_mono n n' (2 ^ k) HP Hn) as Hq.
  pose proof (Z.div_mod n (2 ^ k) ltac:(lia)) as En.
  pose proof (Z.div_mod n' (2 ^ k) ltac:(lia)) as En'.
  pose proof (Z.mod_pos_bound n (2 ^ k) HP) as Br.
  pose proof (Z.mod_pos_bound n' (2 ^ k) HP) as Br'.
  destruct (Z.eq_dec (n / 2 ^ k) (n' / 2 ^ k)) as [E|E].
  - unfold rne_shr. rewrite <- E.
    assert (Hr : n mod 2 ^ k <= n' mod 2 ^ k) by (rewrite <- E in En'; lia).
    destruct (Z.ltb_spec (2 * (n mod 2 ^ k)) (2 ^ k));
    destruct (Z.ltb_spec (2 * (n' mod 2 ^ k)) (2 ^ k));
    destruct (Z.ltb_spec (2 ^ k) (2 * (n mod 2 ^ k)));
    destruct (Z.ltb_spec (2 ^ k) (2 * (n' mod 2 ^ k)));
    destruct (Z.even (n / 2 ^ k)); lia.
  - pose proof (rne_shr_bounds n k Hk). pose proof (rne_shr_bounds n' k Hk). lia.
Qed.

Lemma rne_shr_nonneg n k : 0 <= k -> 0 <= n -> 0 <= rne_shr n k.
Proof.
  intros Hk Hn. pose proof (rne_shr_bounds n k Hk).
  assert (0 <= n / 2 ^ k) by (apply Z.div_pos; [lia|apply Z.pow_pos_nonneg; lia]). lia.
Qed.

Lemma round_sig_nonneg p n : 0 <= n -> 0 <= round_sig p n.
Proof.
  intros Hn. unfold round_sig.
  apply Z.mul_nonneg_nonneg; [apply rne_shr_nonneg; lia|apply Z.pow_nonneg; lia].
Qed.

Lemma round_sig_upper p n : 1 <= p -> 0 <= n -> round_sig p n <= 2 ^ (Z.log2 n + 1).
Proof.
  intros Hp Hn. unfold round_sig.
  set (L := Z.log2 n). set (k := Z.max 0 (L + 1 - p)).
  assert (HL : 0 <= L) by apply Z.log2_nonneg.
  assert (Hk : 0 <= k <= L + 1) by (unfold k; lia).
  assert (Hlt : n < 2 ^ (L + 1)).
  { destruct (Z.eq_dec n 0) as [->|]; [apply Z.pow_pos_nonneg; lia|].
    apply Z.log2_spec. lia. }
  assert (HP : 0 < 2 ^ k) by (apply Z.pow_pos_nonneg; lia).
  assert (Esplit : 2 ^ (L + 1) = 2 ^ (L + 1 - k) * 2 ^ k).
  { rewrite <- Z.pow_add_r by lia. f_equal. lia. }
  rewrite Esplit. apply Z.mul_le_mono_nonneg_r; [lia|].
  pose proof (rne_shr_bounds n k ltac:(lia)) as B.
  assert (n / 2 ^ k < 2 ^ (L + 1 - k)).
  { apply Z.div_lt_upper_bound; [lia|]. rewrite Z.mul_comm. lia. }
  lia.
Qed.

Lemma round_sig_lower p n : 1 <= p -> 0 < n -> 2 ^ Z.log2 n <= round_sig p n.
Proof.
  intros Hp Hn. unfold round_sig.
  set (L := Z.log2 n). set (k := Z.max 0 (L + 1 - p)).
  assert (HL : 0 <= L) by apply Z.log2_nonneg.
  assert (Hk : 0 <= k <= L) by (unfold k; lia).
  assert (Hle : 2 ^ L <= n) by (apply Z.log2_spec; lia).
  assert (HP : 0 < 2 ^ k) by (apply Z.pow_pos_nonneg; lia).
  assert (Esplit : 2 ^ L = 2 ^ (L - k) * 2 ^ k).
  { rewrite <- Z.pow_add_r by lia. f_equal. lia. }
  rewrite Esplit. apply Z.mul_le_mono_nonneg_r; [lia|].
  pose proof (rne_shr_bounds n k ltac:(lia)) as B.
  assert (2 ^ (L - k) <= n / 2 ^ k).
  { apply Z.div_le_lower_bound; [lia|]. rewrite Z.mul_comm. lia. }
  lia.
Qed.

Lemma round_sig_mono p n n' : 1 <= p -> 0 <= n <= n' -> round_sig p n <= round_sig p n'.
Proof.
  intros Hp [Hn Hnn'].
  pose proof (Z.log2_le_mono n n' Hnn') as HL.
  destruct (Z.eq_dec (Z.max 0 (Z.log2 n + 1 - p)) (Z.max 0 (Z.log2 n' + 1 - p))) as [E|E].
  - unfold round_sig. rewrite <- E.
    apply Z.mul_le_mono_nonneg_r; [apply Z.pow_nonneg; lia|].
    apply rne_shr_mono; lia.
  - assert (Hlt : Z.log2 n + 1 <= Z.log2 n') by lia.
    assert (Hn' : 0 < n').
    { destruct (Z.eq_dec n' 0) as [->|]; [|lia]. cbn in Hlt. pose proof (Z.log2_nonneg n). lia. }
    pose proof (round_sig_upper p n Hp Hn). pose proof (round_sig_lower p n' Hp Hn').
    assert (2 ^ (Z.log2 n + 1) <= 2 ^ Z.log2 n') by (apply Z.pow_le_mono_r; lia).
    lia.
Qed.

Lemma saturate_u8_mono z z' : z <= z' -> saturate_u8 z <= saturate_u8 z'.
Proof. unfold saturate_u8. lia. Qed.

(** Converting an integer to binary32, multiplying by a fixed non-negative
    binary32 number and rounding to an integer is monotone. *)
Lemma scaled_round_mono (scale : f32) (s s' : Z) :
  0 <= mant scale -> 0 <= s <= s' ->
  cvRound (f32_mul (f32_of_int s) scale) <= cvRound (f32_mul (f32_of_int s') scale).
Proof.
  intros HM [Hs Hss'].
  assert (Hm : round_sig 24 (round_sig 24 s * mant scale)
               <= round_sig 24 (round_sig 24 s' * mant scale)).
  { apply round_sig_mono; [lia|]. split.
    - apply Z.mul_nonneg_nonneg; [apply round_sig_nonneg; lia|lia].
    - apply Z.mul_le_mono_nonneg_r; [lia|]. apply round_sig_mono; lia. }
  unfold cvRound, f32_mul, f32_of_int. cbn [mant expo].
  destruct (Z.leb_spec 0 (0 + expo scale)).
  - apply Z.mul_le_mono_nonneg_r; [apply Z.pow_nonneg; lia|exact Hm].
  - apply rne_shr_mono; [lia|exact Hm].
Qed.

(** The mantissa-and-exponent arithmetic agrees with the Standard
    Library's binary32 on a grid of 3600 divisors and sums that reaches
    past 2^24, where the conversion of the integer itself rounds. *)
Example binary32_model_agrees :
  forallb (fun i => forallb (fun j =>
             binary32_agrees (i * i * 3571 + 1) (j * 1000003 + j))
           (map Z.of_nat (seq 0 60)))
          (map Z.of_nat (seq 0 60)) = true.
Proof. by_evaluation. Qed.

(* ================================================================== *)
(** ** Histogram equalisation                                          *)
(* ================================================================== *)

Lemma hist_nonneg src v : 0 <= hist src v.
Proof. unfold hist. lia. Qed.

Lemma count_occ_le_length (l : list Z) v : (count_occ Z.eq_dec l v <= List.length l)%nat.
Proof.
  induction l as [|x l IH]; cbn; [lia|]. destruct (Z.eq_dec x v); lia.
Qed.

Lemma hist_le_size src v : well_shaped src -> hist src v <= Z.of_nat (size src).
Proof.
  unfold well_shaped, hist. intros <-. pose proof (count_occ_le_length (data src) v). lia.
Qed.

Lemma hist_occupied src v : In v (data src) -> (hist src v =? 0) = false.
Proof.
  intros H. apply (count_occ_In Z.eq_dec) in H. unfold hist.
  apply Z.eqb_neq. lia.
Qed.

(** Summing a non-negative function over the members of a list that pass a
    test: a weaker test gives a larger sum. *)
Lemma sum_filter_mono (f : Z -> Z) (p p' : Z -> bool) l :
  (forall x, 0 <= f x) -> (forall x, p x = true -> p' x = true) ->
  0 <= fold_left Z.add (map f (filter p l)) 0
       <= fold_left Z.add (map f (filter p' l)) 0.
Proof.
  intros Hf Hp.
  assert (H : forall l a, fold_left Z.add l a = a + fold_left Z.add l 0).
  { clear. induction l as [|x l IH]; intros a; cbn; [lia|].
    rewrite (IH (a + x)), (IH x). lia. }
  induction l as [|x l IH]; cbn; [lia|].
  destruct (p x) eqn:Px.
  - rewrite (Hp x Px). cbn. rewrite (H _ (f x)), (H (map f (filter p' l)) (f x)).
    specialize (Hf x). lia.
  - destruct (p' x); cbn; [|exact IH].
    rewrite (H (map f (filter p' l)) (f x)). specialize (Hf x). lia.
Qed.

Lemma cumulated_mono src i0 i i' :
  i <= i' -> 0 <= cumulated src i0 i <= cumulated src i0 i'.
Proof.
  intros Hi. unfold cumulated. apply sum_filter_mono.
  - apply hist_nonneg.
  - intros x. rewrite !andb_true_iff, !Z.leb_le. lia.
Qed.

(** The first occupied bin is below every sample of the image, so the
    entries of the table below it, which OpenCV leaves unset, are never
    read. *)
Lemma find_first_least (p : Z -> bool) (n s : nat) i0 :
  find p (map Z.of_nat (seq s n)) = Some i0 ->
  forall x, Z.of_nat s <= x < Z.of_nat (s + n) -> p x = true -> i0 <= x.
Proof.
  revert s. induction n as [|n IH]; intros s Hf x Hx Px; cbn in Hf; [discriminate|].
  destruct (p (Z.of_nat s)) eqn:Ps.
  - inversion Hf; subst. lia.
  - apply (IH (S s) Hf); [|exact Px].
    assert (x <> Z.of_nat s) by congruence. lia.
Qed.

Lemma first_bin_least src i0 x :
  first_bin src = Some i0 -> In x (data src) -> is_u8 x -> i0 <= x.
Proof.
  intros Hf Hin Hx. unfold first_bin, bins in Hf.
  apply (find_first_least _ _ _ _ Hf); [unfold is_u8 in Hx; lia|].
  rewrite (hist_occupied src x Hin). reflexivity.
Qed.

Lemma hist_scale_nonneg src i0 : well_shaped src -> 0 <= mant (hist_scale src i0).
Proof.
  intros Hw. unfold hist_scale, f32_div. cbn [mant].
  apply round_sig_nonneg.
  set (b := mant (f32_of_int (Z.of_nat (size src) - hist src i0))).
  assert (Hb : 0 <= b).
  { unfold b, f32_of_int. cbn [mant]. apply round_sig_nonneg.
    pose proof (hist_le_size src i0 Hw). lia. }
  set (s := Z.max 0 (28 + Z.log2 b - Z.log2 (mant (f32_of_int 255)))).
  assert (0 <= mant (f32_of_int 255) * 2 ^ s / b).
  { destruct (Z.eq_dec b 0) as [->|Hb0]; [rewrite Z.div_0_r; lia|].
    apply Z.div_pos; [|lia].
    apply Z.mul_nonneg_nonneg; [|apply Z.pow_nonneg; lia].
    unfold f32_of_int. cbn [mant]. apply round_sig_nonneg. lia. }
  destruct (_ =? 0); lia.
Qed.

(** From the first occupied bin on, the lookup table never decreases. *)
Lemma lut_mono src i0 i i' :
  well_shaped src -> i <= i' -> lut src i0 i <= lut src i0 i'.
Proof.
  intros Hw Hi. unfold lut.
  destruct (Z.leb_spec i i0); destruct (Z.leb_spec i' i0); try lia.
  - pose proof (saturate_u8_range
      (cvRound (f32_mul (f32_of_int (cumulated src i0 i')) (hist_scale src i0)))) as R.
    unfold is_u8 in R. lia.
  - apply saturate_u8_mono, scaled_round_mono.
    + apply hist_scale_nonneg, Hw.
    + apply cumulated_mono, Hi.
Qed.

Lemma pixel_full {A} (a : ndarray A) (B : Type) (b : B) r c v :
  pixel a r c = Some v -> pixel (full (shape a) b) r c = Some b.
Proof.
  unfold pixel, full. cbn [shape data].
  destruct ((r <? fst (shape a))%nat && (c <? snd (shape a))%nat) eqn:E; [|discriminate].
  intros _. apply andb_true_iff in E. destruct E as [Hr Hc].
  apply Nat.ltb_lt in Hr, Hc. apply nth_error_repeat. nia.
Qed.

(** What [cv2.equalizeHist] returns on an 8-bit image: the image sent
    through one table that does not decrease on the samples present. *)
Lemma cv2_equalizeHist_table (src : ndarray Z) :
  u8_image src ->
  exists dst table,
    outcome (cv2_equalizeHist src) = inr dst /\
    shape dst = shape src /\
    through_table table src dst /\
    (forall v v', In v (data src) -> In v' (data src) -> v <= v' -> table v <= table v').
Proof.
  intros [Hw Hu]. rewrite Forall_forall in Hu.
  unfold cv2_equalizeHist. destruct (first_bin src) as [i0|] eqn:F.
  - cbn [bind tell]. destruct (hist src i0 =? Z.of_nat (size src)).
    + exists (full (shape src) i0), (fun _ => i0). cbn. repeat split.
      * intros r c v Hv. apply (pixel_full src Z i0 r c v Hv).
      * intros; lia.
    + exists (amap (lut src i0) src), (lut src i0). cbn. repeat split.
      * intros r c v Hv. rewrite pixel_amap, Hv. reflexivity.
      * intros v v' _ _ Hvv'. apply lut_mono; assumption.
  - exists src, (fun v => v). cbn. repeat split.
    + intros r c v Hv. exact Hv.
    + intros; assumption.
Qed.

(** Equalisation keeps the rank order of an 8-bit image, and two positions
    end equal exactly where the table gives their samples the same entry. *)
Lemma cv2_equalizeHist_rank_order (src : ndarray Z) :
  u8_image src ->
  exists dst table,
    outcome (cv2_equalizeHist src) = inr dst /\
    shape dst = shape src /\
    rank_preserved src dst /\
    through_table table src dst /\
    (forall r c r' c' v v' u u',
        pixel src r c = Some v -> pixel src r' c' = Some v' ->
        pixel dst r c = Some u -> pixel dst r' c' = Some u' ->
        (u = u' <-> table v = table v')).
Proof.
  intros Hsrc.
  destruct (cv2_equalizeHist_table src Hsrc) as (dst & table & Ho & Hs & Ht & Hm).
  exists dst, table.
  split; [exact Ho|]. split; [exact Hs|]. split; [|split; [exact Ht|]].
  2: intros r c r' c' v v' u u' Hv Hv' Hu Hu'; split.
  - intros r c r' c' v v' Hv Hv' Hlt.
    exists (table v), (table v'). repeat split; try (apply Ht; assumption).
    apply Hm; [eapply pixel_In; eauto|eapply pixel_In; eauto|lia].
  - intros E. rewrite (Ht _ _ _ Hv) in Hu. rewrite (Ht _ _ _ Hv') in Hu'. congruence.
  - intros E. rewrite (Ht _ _ _ Hv) in Hu. rewrite (Ht _ _ _ Hv') in Hu'. congruence.
Qed.

(** An equalisation, evaluated: 6 samples, first bin 10, scale 255/4. *)
Example equalization_of_six_samples :
  outcome (cv2_equalizeHist (mk_ndarray (2, 3)%nat [10; 200; 10; 57; 58; 255]))
  = inr (mk_ndarray (2, 3)%nat [0; 191; 0; 64; 128; 255]).
Proof. vm_compute. reflexivity. Qed.

(** The table can merge neighbouring intensities: in an image of 602
    samples holding 0 once, 1 once and 2 six hundred times, the samples 0
    and 1 both become 0. *)
Example equalization_merges_values :
  let src := mk_ndarray (1, 602)%nat (0 :: 1 :: repeat 2 600) in
  first_bin src = Some 0 /\ lut src 0 0 = 0 /\ lut src 0 1 = 0 /\ lut src 0 2 = 255.
Proof. vm_compute. auto. Qed.

(* ================================================================== *)
(** ** Rank order through the enhancer                                 *)
(* ================================================================== *)

Lemma astype_uint8_range (ib : Z) (f : float) : is_u8 ib -> is_u8 (astype_uint8 ib f).
Proof.
  intros Hib. unfold astype_uint8. destruct (truncate f) as [z|]; [|exact Hib].
  unfold is_u8. pose proof (Z.mod_pos_bound z 256 ltac:(lia)). lia.
Qed.

(** Whatever the dtype, a normalisation that returns gives an 8-bit image
    of the shape of its argument. *)
Lemma min_max_normalization_u8_image {A} (ib : Z) (D : dtype A) (a : ndarray A) y :
  is_u8 ib -> well_shaped a ->
  outcome (min_max_normalization ib D a) = inr y ->
  shape y = shape a /\ u8_image y.
Proof.
  intros Hib Hw Ho.
  destruct (data a) as [|x t] eqn:E.
  - unfold min_max_normalization, np_min in Ho. rewrite E in Ho. discriminate Ho.
  - rewrite (min_max_normalization_eq ib D a x t E) in Ho. cbn in Ho.
    inversion Ho; subst y; clear Ho. split; [reflexivity|]. split.
    + unfold well_shaped, size in *. cbn [amap shape data]. rewrite length_map. exact Hw.
    + cbn [amap data]. apply Forall_forall. intros z Hz. apply in_map_iff in Hz.
      destruct Hz as (v & <- & _). apply astype_uint8_range, Hib.
Qed.

(** The enhancer is two normalisations followed by two equalisations. *)
Lemma enhance_images_stages (ib : Z) (w f : ndarray float) ew ef :
  outcome (enhance_images ib w f) = inr (ew, ef) ->
  exists nw nf,
    outcome (min_max_normalization ib float64 w) = inr nw /\
    outcome (min_max_normalization ib float64 f) = inr nf /\
    outcome (cv2_equalizeHist nw) = inr ew /\
    outcome (cv2_equalizeHist nf) = inr ef.
Proof.
  unfold enhance_images. intros Ho.
  destruct (min_max_normalization ib float64 w) as [t1 [e1|nw]]; [discriminate Ho|].
  destruct (min_max_normalization ib float64 f) as [t2 [e2|nf]]; [discriminate Ho|].
  cbn [bind] in Ho.
  destruct (cv2_equalizeHist nw) as [t3 [e3|ew']] eqn:E3; [discriminate Ho|].
  destruct (cv2_equalizeHist nf) as [t4 [e4|ef']] eqn:E4; [discriminate Ho|].
  cbn in Ho. inversion Ho; subst. exists nw, nf. rewrite E3, E4. repeat split; reflexivity.
Qed.

(** C7, as the code has it.  Histogram equalisation in the enhancer keeps
    the rank order of intensities, not strictly.  Of each of the two images
    the enhancer returns: with [x] the normalised 8-bit image that enters
    the equalisation and [e] the enhanced image, a sample of [x] strictly
    below another is not above it in [e]; [e] is [x] sent through one
    lookup table, so two positions end equal exactly where the table gives
    both samples the same entry, which it also does for samples that
    differ. *)
Theorem enhance_images_rank_order (ib : Z) (w f : ndarray float) (ew ef : ndarray Z) :
  is_u8 ib -> well_shaped w -> well_shaped f ->
  outcome (enhance_images ib w f) = inr (ew, ef) ->
  exists xw xf tw tf,
    outcome (min_max_normalization ib float64 w) = inr xw /\
    outcome (min_max_normalization ib float64 f) = inr xf /\
    outcome (cv2_equalizeHist xw) = inr ew /\
    outcome (cv2_equalizeHist xf) = inr ef /\
    rank_preserved xw ew /\ rank_preserved xf ef /\
    through_table tw xw ew /\ through_table tf xf ef /\
    (forall r c r' c' v v' u u',
        pixel xw r c = Some v -> pixel xw r' c' = Some v' ->
        pixel ew r c = Some u -> pixel ew r' c' = Some u' ->
        (u = u' <-> tw v = tw v')) /\
    (forall r c r' c' v v' u u',
        pixel xf r c = Some v -> pixel xf r' c' = Some v' ->
        pixel ef r c = Some u -> pixel ef r' c' = Some u' ->
        (u = u' <-> tf v = tf v')).
Proof.
  intros Hib Hw Hf Ho.
  destruct (enhance_images_stages ib w f ew ef Ho) as (xw & xf & Nw & Nf & Ew & Ef).
  destruct (min_max_normalization_u8_image ib float64 w xw Hib Hw Nw) as [_ Uw].
  destruct (min_max_normalization_u8_image ib float64 f xf Hib Hf Nf) as [_ Uf].
  destruct (cv2_equalizeHist_rank_order xw Uw) as (ew' & tw & Ew' & _ & Rw & Tw & Qw).
  destruct (cv2_equalizeHist_rank_order xf Uf) as (ef' & tf & Ef' & _ & Rf & Tf & Qf).
  assert (ew' = ew) by congruence. assert (ef' = ef) by congruence. subst ew' ef'.
  exists xw, xf, tw, tf.
  split; [exact Nw|]. split; [exact Nf|]. split; [exact Ew|]. split; [exact Ef|].
  split; [exact Rw|]. split; [exact Rf|]. split; [exact Tw|]. split; [exact Tf|].
  split; [exact Qw|exact Qf].
Qed.

Lemma enhance_images_rank_order_witness :
  let w := amap half (mk_ndarray (2, 2)%nat [255; 150; 15; 110]) in
  let f := amap half (mk_ndarray (2, 2)%nat [100; 0; 5; 70]) in
  let ew := mk_ndarray (2, 2)%nat [255; 170; 0; 85] in
  let ef := mk_ndarray (2, 2)%nat [255; 0; 85; 170] in
  exists xw xf tw tf,
    outcome (min_max_normalization 0 float64 w) = inr xw /\
    outcome (min_max_normalization 0 float64 f) = inr xf /\
    outcome (cv2_equalizeHist xw) = inr ew /\
    outcome (cv2_equalizeHist xf) = inr ef /\
    rank_preserved xw ew /\ rank_preserved xf ef /\
    through_table tw xw ew /\ through_table tf xf ef /\
    (forall r c r' c' v v' u u',
        pixel xw r c = Some v -> pixel xw r' c' = Some v' ->
        pixel ew r c = Some u -> pixel ew r' c' = Some u' ->
        (u = u' <-> tw v = tw v')) /\
    (forall r c r' c' v v' u u',
        pixel xf r c = Some v -> pixel xf r' c' = Some v' ->
        pixel ef r c = Some u -> pixel ef r' c' = Some u' ->
        (u = u' <-> tf v = tf v')).
Proof.
  intros w f ew ef.
  apply (enhance_images_rank_order 0 w f ew ef).
  - unfold is_u8. lia.
  - reflexivity.
  - reflexivity.
  - vm_compute. reflexivity.
Defined.

(** C7 as stated fails in its last clause: equal outputs do come from
    unequal inputs.  In a row of 602 samples holding 0 once, 1 once and
    255 six hundred times (an image the normalisation leaves as it is) the
    scale of the table is 255/601, the entry of 1 is 0.42 rounded to 0, and
    the two positions holding 0 and 1 both end at 0. *)
Lemma enhance_images_merges_intensities :
  ~ keeps_rank_with_ties_from_equal_sources 0
      (amap half (mk_ndarray (1, 602)%nat (0 :: 1 :: repeat 255 600)))
      (amap half (mk_ndarray (1, 602)%nat (0 :: 1 :: repeat 255 600))).
Proof.
  set (s := mk_ndarray (1, 602)%nat (0 :: 1 :: repeat 255 600)).
  intros (xw & xf & ew & ef & Nw & _ & Ho & _ & _ & Tw & _).
  assert (Hs : Forall is_u8 (data s)).
  { apply Forall_forall. intros v [<-|[<-|Hv]]; unfold is_u8; try lia.
    apply repeat_spec in Hv. lia. }
  assert (Hn : outcome (min_max_normalization 0 float64 (amap half s)) = inr s).
  { rewrite (min_max_normalization_halved 0 s Hs).
    apply min_max_normalization_fixed_point; [exact Hs|left; reflexivity|].
    right; right. left. reflexivity. }
  assert (xw = s) by congruence. subst xw.
  destruct (enhance_images_stages 0 _ _ ew ef Ho) as (nw & nf & Nw' & _ & Ew & _).
  assert (nw = s) by congruence. subst nw.
  assert (F : first_bin s = Some 0) by (vm_compute; reflexivity).
  assert (H : (hist s 0 =? Z.of_nat (size s)) = false) by (vm_compute; reflexivity).
  unfold cv2_equalizeHist in Ew. rewrite F in Ew. cbn [bind tell] in Ew. rewrite H in Ew.
  cbn [ret outcome snd] in Ew. inversion Ew; subst ew; clear Ew.
  assert (L0 : lut s 0 0 = 0) by (vm_compute; reflexivity).
  assert (L1 : lut s 0 1 = 0) by (vm_compute; reflexivity).
  assert (E : 0 = 1).
  { apply (Tw 0%nat 0%nat 0%nat 1%nat 0 1 0 0).
    - reflexivity.
    - reflexivity.
    - rewrite pixel_amap. change (pixel s 0 0) with (Some 0). cbn [option_map].
      rewrite L0. reflexivity.
    - rewrite pixel_amap. change (pixel s 0 1) with (Some 1). cbn [option_map].
      rewrite L1. reflexivity.
    - reflexivity. }
  discriminate E.
Qed.

(* ================================================================== *)
(** ** Enhancement of constant images and the end-to-end example       *)
(* ================================================================== *)

(** C8.  The end-to-end example: on a 4x4 in-phase image of 100 and a 4x4
    out-phase image of 50 (nothing clips: 150 <= 255) the separation gives
    water 75 and fat 25 at every position, and the enhancement of these two
    constant images gives two all-zero 4x4 images: the zero range makes
    every normalised sample NaN, stored as byte 0, and the equalisation of
    a single-bin image returns it filled with that bin. *)
Theorem end_to_end_constant_example :
  let a := full (4, 4)%nat 100 in
  let b := full (4, 4)%nat 50 in
  exists w f,
    outcome (dixon_algorithm a b) = inr (w, f) /\
    shape w = (4, 4)%nat /\ shape f = (4, 4)%nat /\
    well_shaped w /\ well_shaped f /\
    Forall (fun v => denotes v (75 # 1)) (data w) /\
    Forall (fun v => denotes v (25 # 1)) (data f) /\
    outcome (enhance_images 0 w f) = inr (full (4, 4)%nat 0, full (4, 4)%nat 0).
Proof.
  intros a b.
  exists (full (4, 4)%nat (of_Z 75)), (full (4, 4)%nat (of_Z 25)).
  split; [vm_compute; reflexivity|].
  split; [reflexivity|]. split; [reflexivity|].
  split; [reflexivity|]. split; [reflexivity|].
  split; [|split].
  - apply Forall_forall. intros v Hv. apply repeat_spec in Hv. subst v.
    apply denotesb_denotes. vm_compute. reflexivity.
  - apply Forall_forall. intros v Hv. apply repeat_spec in Hv. subst v.
    apply denotesb_denotes. vm_compute. reflexivity.
  - vm_compute. reflexivity.
Qed.

(* ================================================================== *)
(** ** Loading the two files                                           *)
(* ================================================================== *)

Section Loading.

Variable invalid_byte : Z.
Variable dcmread : string -> exn + pixel_array.
Variable GaussianBlur : ndarray Z -> M (ndarray Z).
Variable display_images :
  ndarray Z -> ndarray Z -> ndarray Z -> ndarray Z -> ndarray Z -> ndarray Z -> M unit.

(** The loader returns both arrays, or ([None], [None]) after one printed
    line, or lets an exception it does not catch escape. *)
Lemma read_dicom_files_cases (p q : string) :
  (exists a b, read_dicom_files dcmread p q = ([], inr (Some a, Some b))) \/
  (exists line, read_dicom_files dcmread p q = ([printed line], inr (None, None))) \/
  (exists e, caught e = false /\ read_dicom_files dcmread p q = ([], inl e)).
Proof.
  unfold read_dicom_files.
  destruct (dcmread p) as [e|a].
  - destruct (caught e) eqn:C.
    + right; left. eexists. reflexivity.
    + right; right. exists e. auto.
  - destruct (dcmread q) as [e|b].
    + destruct (caught e) eqn:C.
      * right; left. eexists. reflexivity.
      * right; right. exists e. auto.
    + left. exists a, b. reflexivity.
Qed.

(** C10.  [read_dicom_files] is all or nothing: whatever the two paths and
    whatever the files hold, it returns both pixel arrays or the pair
    ([None], [None]), never exactly one [None] (an exception other than the
    two it catches escapes instead of a return).  And when a returned value
    is [None], [main] returns at once: its whole trace is the loader's,
    which holds printed lines only, so no normalisation, separation,
    enhancement or display has taken place. *)
Theorem read_dicom_files_all_or_nothing (p q : string) :
  match outcome (read_dicom_files dcmread p q) with
  | inr (Some a, Some b) => dcmread p = inr a /\ dcmread q = inr b
  | inr (None, None) =>
      exists e, caught e = true /\
                (dcmread p = inl e \/ (exists a, dcmread p = inr a /\ dcmread q = inl e))
  | inr (Some _, None) => False
  | inr (None, Some _) => False
  | inl e =>
      caught e = false /\
      (dcmread p = inl e \/ (exists a, dcmread p = inr a /\ dcmread q = inl e))
  end /\
  let loaded := read_dicom_files dcmread (path_join BASE_DIR "1-06.dcm")
                                         (path_join BASE_DIR "1-05.dcm") in
  forall x y,
    outcome loaded = inr (x, y) -> x = None \/ y = None ->
    main invalid_byte dcmread GaussianBlur display_images = (trace loaded, inr tt) /\
    Forall (fun ev => exists line, ev = printed line)
           (trace (main invalid_byte dcmread GaussianBlur display_images)).
Proof.
  split.
  - unfold read_dicom_files.
    destruct (dcmread p) as [e|a].
    + destruct (caught e) eqn:C; cbn; [exists e|]; auto.
    + destruct (dcmread q) as [e|b].
      * destruct (caught e) eqn:C; cbn; [exists e|]; eauto.
      * cbn. auto.
  - intros loaded x y Ho Hn. unfold main. fold loaded.
    destruct (read_dicom_files_cases (path_join BASE_DIR "1-06.dcm")
                                     (path_join BASE_DIR "1-05.dcm"))
      as [(a & b & E)|[(line & E)|(e & C & E)]]; fold loaded in E; rewrite E in *;
      cbn in Ho; inversion Ho; subst x y.
    + destruct Hn; discriminate.
    + cbn. split; [reflexivity|]. repeat constructor. exists line. reflexivity.
Qed.

End Loading.

Lemma read_dicom_files_all_or_nothing_witness :
  let dcmread := fun _ : string => inl FileNotFoundError : exn + pixel_array in
  let blur := fun a : ndarray Z => ret a in
  let display := fun _ _ _ _ _ _ : ndarray Z => tell (shown 6) in
  let loaded := read_dicom_files dcmread (path_join BASE_DIR "1-06.dcm")
                                         (path_join BASE_DIR "1-05.dcm") in
  main 0 dcmread blur display = (trace loaded, inr tt) /\
  Forall (fun ev => exists line, ev = printed line) (trace (main 0 dcmread blur display)).
Proof.
  intros dcmread blur display loaded.
  apply (proj2 (read_dicom_files_all_or_nothing 0 dcmread blur display "a" "b") None None).
  - reflexivity.
  - left. reflexivity.
Defined.


(* ================================================================== *)
(** * The rest of the program                                          *)
(* ================================================================== *)

(** What follows covers the code around the properties above: the error
    paths of every function, the invariants of their results, the way the
    stages compose in [main], and the display. *)

(* ================================================================== *)
(** ** The loader's messages                                           *)
(* ================================================================== *)

(** X1.  The loader reports the first read that fails, and only that one:
    when the in-phase read raises one of the two exceptions caught, the one
    line printed names the in-phase path, whatever the out-phase file
    holds; when the in-phase read succeeds and the out-phase read fails,
    the line names the out-phase path. *)
Theorem read_dicom_files_reports_first_failure
  (dcmread : string -> exn + pixel_array) (p q : string) (e : exn) :
  caught e = true ->
  (dcmread p = inl e ->
   read_dicom_files dcmread p q =
     ([printed ("Error reading in-phase DICOM file: " ++ p)], inr (None, None))) /\
  (forall a, dcmread p = inr a -> dcmread q = inl e ->
   read_dicom_files dcmread p q =
     ([printed ("Error reading out-phase DICOM file: " ++ q)], inr (None, None))).
Proof.
  intros C. split.
  - intros Hp. unfold read_dicom_files. rewrite Hp, C. reflexivity.
  - intros a Hp Hq. unfold read_dicom_files. rewrite Hp, Hq, C. reflexivity.
Qed.

Lemma read_dicom_files_reports_first_failure_witness :
  read_dicom_files (fun _ => inl InvalidDicomError) "in.dcm" "out.dcm" =
    ([printed "Error reading in-phase DICOM file: in.dcm"], inr (None, None)).
Proof.
  apply (proj1 (read_dicom_files_reports_first_failure
                  (fun _ => inl InvalidDicomError) "in.dcm" "out.dcm" InvalidDicomError
                  eq_refl)).
  reflexivity.
Defined.

(* ================================================================== *)
(** ** Normalisation: errors and invariants                            *)
(* ================================================================== *)

Lemma min_max_normalization_empty {A} (ib : Z) (D : dtype A) (a : ndarray A) :
  data a = [] -> min_max_normalization ib D a = ([], inl ValueError).
Proof. intros E. unfold min_max_normalization, np_min. rewrite E. reflexivity. Qed.

Lemma min_max_normalization_returns {A} (ib : Z) (D : dtype A) (a : ndarray A) :
  data a <> [] ->
  exists y,
    min_max_normalization ib D a = (normalization_trace (size a), inr y) /\
    shape y = shape a /\
    List.length (data y) = List.length (data a) /\
    (is_u8 ib -> Forall is_u8 (data y)).
Proof.
  intros Hne. destruct (data a) as [|x t] eqn:E; [congruence|].
  pose proof (min_max_normalization_eq ib D a x t E) as H. cbv zeta in H.
  eexists. split; [exact H|].
  cbn [amap shape data]. split; [reflexivity|]. split.
  - rewrite length_map, E. reflexivity.
  - intros Hib. apply Forall_forall. intros z Hz. apply in_map_iff in Hz.
    destruct Hz as (v & <- & _). apply astype_uint8_range, Hib.
Qed.

(** X3.  Normalisation keeps the order of intensities: in the result of
    normalising a non-constant 8-bit image, a sample that was not above
    another is not above it afterwards (so equal samples stay equal). *)
Theorem min_max_normalization_keeps_order (ib : Z) (a : ndarray Z) :
  u8_image a -> ~ constant_image a ->
  exists y,
    outcome (min_max_normalization ib uint8 a) = inr y /\
    forall r c r' c' v v',
      pixel a r c = Some v -> pixel a r' c' = Some v' -> v <= v' ->
      exists u u', pixel y r c = Some u /\ pixel y r' c' = Some u' /\ u <= u'.
Proof.
  intros [Hw Hu] Hnc.
  destruct (nonconstant_extremes a Hnc) as (mn & mx & Hmn & Hmx & Hlt).
  exists (amap (fun v => 255 * (v - mn) / (mx - mn)) a).
  rewrite (min_max_normalization_u8 ib a mn mx Hu Hmn Hmx Hlt).
  split; [reflexivity|].
  intros r c r' c' v v' Hv Hv' Hle.
  exists (255 * (v - mn) / (mx - mn)), (255 * (v' - mn) / (mx - mn)).
  rewrite !pixel_amap, Hv, Hv'. split; [reflexivity|]. split; [reflexivity|].
  apply Z.div_le_mono; lia.
Qed.

Lemma min_max_normalization_keeps_order_witness :
  exists y,
    outcome (min_max_normalization 0 uint8 (mk_ndarray (1, 3)%nat [3; 0; 8])) = inr y /\
    forall r c r' c' v v',
      pixel (mk_ndarray (1, 3)%nat [3; 0; 8]) r c = Some v ->
      pixel (mk_ndarray (1, 3)%nat [3; 0; 8]) r' c' = Some v' -> v <= v' ->
      exists u u', pixel y r c = Some u /\ pixel y r' c' = Some u' /\ u <= u'.
Proof.
  apply (min_max_normalization_keeps_order 0 (mk_ndarray (1, 3)%nat [3; 0; 8])).
  - apply u8_image_intro; reflexivity.
  - apply (nonconstant_intro _ 3 0); cbn; auto. lia.
Defined.

(** Adding a constant to every sample moves the extremes by that constant
    and leaves every difference as it was. *)
Lemma fold_minimum_shift (c : Z) t x :
  fold_left (minimum uint8) (map (fun v => v + c) t) (x + c) =
  fold_left (minimum uint8) t x + c.
Proof.
  apply (fold_left_map_commute (fun v => v + c) (minimum uint8) (minimum uint8)
           (fun _ => True)); auto.
  - intros a b _ _. unfold minimum. cbn [uint8 uint dt_le dt_isnan].
    rewrite !orb_false_r.
    destruct (Z.leb_spec (a + c) (b + c)); destruct (Z.leb_spec a b); lia.
  - apply Forall_forall. auto.
Qed.

Lemma fold_maximum_shift (c : Z) t x :
  fold_left (maximum uint8) (map (fun v => v + c) t) (x + c) =
  fold_left (maximum uint8) t x + c.
Proof.
  apply (fold_left_map_commute (fun v => v + c) (maximum uint8) (maximum uint8)
           (fun _ => True)); auto.
  - intros a b _ _. unfold maximum. cbn [uint8 uint dt_le dt_isnan].
    rewrite !orb_false_r.
    destruct (Z.leb_spec (b + c) (a + c)); destruct (Z.leb_spec b a); lia.
  - apply Forall_forall. auto.
Qed.

(** X4.  The normalisation does not see a uniform change of brightness:
    an 8-bit image and the image with the same constant added to every
    sample (still within 8 bits) normalise to the same result, trace
    included. *)
Theorem min_max_normalization_shift_invariant (ib : Z) (a : ndarray Z) (c : Z) :
  Forall is_u8 (data a) -> Forall is_u8 (data (amap (fun v => v + c) a)) ->
  min_max_normalization ib uint8 (amap (fun v => v + c) a) =
  min_max_normalization ib uint8 a.
Proof.
  intros _ _.
  destruct (data a) as [|x t] eqn:E.
  - rewrite !min_max_normalization_empty; auto. cbn. rewrite E. reflexivity.
  - assert (E' : data (amap (fun v => v + c) a) = (x + c) :: map (fun v => v + c) t)
      by (cbn; rewrite E; reflexivity).
    rewrite (min_max_normalization_eq ib uint8 _ _ _ E').
    rewrite (min_max_normalization_eq ib uint8 a x t E). cbv zeta.
    rewrite fold_minimum_shift, fold_maximum_shift.
    set (mn := fold_left (minimum uint8) t x).
    set (mx := fold_left (maximum uint8) t x).
    set (q' := fun v => PrimFloat.div (dt_float uint8 (dt_sub uint8 v (mn + c)))
                          (dt_float uint8 (dt_sub uint8 (mx + c) (mn + c)))).
    set (q := fun v => PrimFloat.div (dt_float uint8 (dt_sub uint8 v mn))
                         (dt_float uint8 (dt_sub uint8 mx mn))).
    assert (Hq : forall v, q' (v + c) = q v).
    { intros v. unfold q', q. cbn [uint8 uint dt_float dt_sub].
      replace (v + c - (mn + c)) with (v - mn) by lia.
      replace (mx + c - (mn + c)) with (mx - mn) by lia. reflexivity. }
    change (PrimFloat.div (dt_float uint8 (dt_sub uint8 (x + c) (mn + c)))
              (dt_float uint8 (dt_sub uint8 (mx + c) (mn + c)))) with (q' (x + c)).
    change (PrimFloat.div (dt_float uint8 (dt_sub uint8 x mn))
              (dt_float uint8 (dt_sub uint8 mx mn))) with (q x).
    rewrite map_map.
    rewrite (map_ext (fun v => q' (v + c)) q Hq t), (Hq x).
    f_equal. f_equal. unfold amap. cbn [shape data]. f_equal.
    rewrite map_map. apply map_ext. intros v.
    fold (q' (v + c)). fold (q v). rewrite Hq. reflexivity.
Qed.

Lemma min_max_normalization_shift_invariant_witness :
  min_max_normalization 0 uint8 (amap (fun v => v + 100) (mk_ndarray (1, 3)%nat [3; 0; 8])) =
  min_max_normalization 0 uint8 (mk_ndarray (1, 3)%nat [3; 0; 8]).
Proof.
  apply (min_max_normalization_shift_invariant 0 (mk_ndarray (1, 3)%nat [3; 0; 8]) 100).
  - repeat constructor; unfold is_u8; lia.
  - repeat constructor; unfold is_u8; lia.
Defined.

(** X5.  An 8-bit image that already spans the whole range is left as it
    is: if 0 and 255 both occur among its samples, the normalisation
    returns the image itself after its eight passes. *)
Theorem min_max_normalization_full_range_unchanged (ib : Z) (y : ndarray Z) :
  Forall is_u8 (data y) -> In 0 (data y) -> In 255 (data y) ->
  min_max_normalization ib uint8 y = (normalization_trace (size y), inr y).
Proof.
  intros Hu H0 H255.
  pose proof (min_max_normalization_fixed_point ib y Hu H0 H255) as Ho.
  destruct (min_max_normalization_returns ib uint8 y) as (z & Hz & _).
  - intros E. rewrite E in H0. destruct H0.
  - rewrite Hz in *. cbn in Ho. congruence.
Qed.

Lemma min_max_normalization_full_range_unchanged_witness :
  min_max_normalization 0 uint8 (mk_ndarray (2, 2)%nat [255; 7; 0; 130]) =
  (normalization_trace 4, inr (mk_ndarray (2, 2)%nat [255; 7; 0; 130])).
Proof.
  apply (min_max_normalization_full_range_unchanged 0 (mk_ndarray (2, 2)%nat [255; 7; 0; 130])).
  - repeat constructor; unfold is_u8; lia.
  - cbn. auto.
  - cbn. auto.
Defined.

(* ================================================================== *)
(** ** The separator: symmetry and order of its outputs                *)
(* ================================================================== *)

Lemma zip_with_comm {A C} (f : A -> A -> C) l l' :
  (forall x y, f x y = f y x) -> zip_with f l l' = zip_with f l' l.
Proof.
  intros Hf. revert l'. induction l as [|x l IH]; intros [|y l']; cbn; auto.
  rewrite Hf, IH. reflexivity.
Qed.

Lemma half_ordered (s s' : Z) :
  is_u8 s -> is_u8 s' -> s <= s' -> PrimFloat.leb (half s) (half s') = true.
Proof.
  intros Hs Hs' Hle.
  pose proof (forall_u8_pairs halves_ordered halves_ordered_ok s s' Hs Hs') as H.
  unfold halves_ordered in H. apply andb_true_iff in H. destruct H as [H _].
  apply eqb_prop in H. rewrite H. apply Z.leb_le, Hle.
Qed.

(** X6.  Exchanging the two inputs of the separator (non-empty 8-bit
    images of one shape) leaves the water image as it is, and at every position at least one of the two fat images is
    0: where the out-phase sample is not below the in-phase one the
    difference saturates to 0 instead of going negative. *)
Theorem dixon_algorithm_inputs_exchanged (a b : ndarray Z) :
  u8_image a -> u8_image b -> shape a = shape b -> data a <> [] ->
  exists w f w' f',
    outcome (dixon_algorithm a b) = inr (w, f) /\
    outcome (dixon_algorithm b a) = inr (w', f') /\
    w' = w /\
    forall r c v v',
      pixel f r c = Some v -> pixel f' r c = Some v' ->
      v = 0%float \/ v' = 0%float.
Proof.
  intros Ha Hb Hs Hne.
  assert (Hne' : data b <> []).
  { destruct Ha as [Wa _]. destruct Hb as [Wb _]. unfold well_shaped, size in *.
    intros E. rewrite E, <- Hs, <- Wa in Wb. destruct (data a); [congruence|discriminate]. }
  rewrite (dixon_algorithm_eq a b Hs Hne), (dixon_algorithm_eq b a (eq_sym Hs) Hne').
  eexists _, _, _, _. split; [reflexivity|]. split; [reflexivity|]. split.
  - unfold amap, amap2. cbn [shape data]. rewrite Hs. f_equal. f_equal.
    apply zip_with_comm. intros x y. f_equal. lia.
  - intros r c v v'. rewrite !pixel_amap.
    rewrite (pixel_amap2 _ a b r c Hs), (pixel_amap2 _ b a r c (eq_sym Hs)).
    destruct (pixel a r c) as [x|]; [|discriminate].
    destruct (pixel b r c) as [y|]; [|discriminate].
    cbn. intros Hv Hv'. inversion Hv; inversion Hv'.
    destruct (Z.le_ge_cases x y).
    + left. replace (saturate_u8 (x - y)) with 0 by (unfold saturate_u8; lia).
      reflexivity.
    + right. replace (saturate_u8 (y - x)) with 0 by (unfold saturate_u8; lia).
      reflexivity.
Qed.

Lemma dixon_algorithm_inputs_exchanged_witness :
  let a := mk_ndarray (1, 2)%nat [200; 10] in
  let b := mk_ndarray (1, 2)%nat [100; 30] in
  exists w f w' f',
    outcome (dixon_algorithm a b) = inr (w, f) /\
    outcome (dixon_algorithm b a) = inr (w', f') /\
    w' = w /\
    forall r c v v',
      pixel f r c = Some v -> pixel f' r c = Some v' ->
      v = 0%float \/ v' = 0%float.
Proof.
  intros a b. apply (dixon_algorithm_inputs_exchanged a b).
  - apply u8_image_intro; reflexivity.
  - apply u8_image_intro; reflexivity.
  - reflexivity.
  - discriminate.
Defined.

(** X7.  For non-empty 8-bit images of one shape the fat image never
    exceeds the water image: at every position
    the float64 fat sample is below or equal to the water sample, and it is
    0 wherever the out-phase sample is not below the in-phase one. *)
Theorem dixon_algorithm_fat_below_water (a b : ndarray Z) :
  u8_image a -> u8_image b -> shape a = shape b -> data a <> [] ->
  exists w f,
    outcome (dixon_algorithm a b) = inr (w, f) /\
    forall r c x y,
      pixel a r c = Some x -> pixel b r c = Some y ->
      exists wv fv,
        pixel w r c = Some wv /\ pixel f r c = Some fv /\
        PrimFloat.leb fv wv = true /\
        (x <= y -> fv = 0%float).
Proof.
  intros Ha Hb Hs Hne.
  rewrite (dixon_algorithm_eq a b Hs Hne).
  eexists _, _. split; [reflexivity|].
  intros r c x y Hx Hy.
  pose proof (u8_pixel a r c x Ha Hx) as Ux.
  pose proof (u8_pixel b r c y Hb Hy) as Uy.
  exists (half (saturate_u8 (x + y))), (half (saturate_u8 (x - y))).
  rewrite !pixel_amap, !(pixel_amap2 _ a b r c Hs), Hx, Hy.
  split; [reflexivity|]. split; [reflexivity|]. split.
  - apply half_ordered; try apply saturate_u8_range.
    apply saturate_u8_mono. unfold is_u8 in *. lia.
  - intros Hle. replace (saturate_u8 (x - y)) with 0 by (unfold saturate_u8; lia).
    reflexivity.
Qed.

Lemma dixon_algorithm_fat_below_water_witness :
  let a := mk_ndarray (1, 2)%nat [200; 10] in
  let b := mk_ndarray (1, 2)%nat [100; 30] in
  exists w f,
    outcome (dixon_algorithm a b) = inr (w, f) /\
    forall r c x y,
      pixel a r c = Some x -> pixel b r c = Some y ->
      exists wv fv,
        pixel w r c = Some wv /\ pixel f r c = Some fv /\
        PrimFloat.leb fv wv = true /\
        (x <= y -> fv = 0%float).
Proof.
  intros a b. apply (dixon_algorithm_fat_below_water a b).
  - apply u8_image_intro; reflexivity.
  - apply u8_image_intro; reflexivity.
  - reflexivity.
  - discriminate.
Defined.

(* ================================================================== *)
(** ** The enhancer: errors and invariants                             *)
(* ================================================================== *)

(** The first occupied bin is a byte that occurs in the image. *)
Lemma first_bin_In src i0 : first_bin src = Some i0 -> is_u8 i0 /\ In i0 (data src).
Proof.
  unfold first_bin. intros H. apply find_some in H. destruct H as [Hb Hh].
  split; [apply In_bins, Hb|].
  apply negb_true_iff, Z.eqb_neq in Hh. unfold hist in Hh.
  apply (count_occ_In Z.eq_dec). lia.
Qed.

(** Only an image without samples has no occupied bin. *)
Lemma first_bin_none src :
  Forall is_u8 (data src) -> first_bin src = None -> data src = [].
Proof.
  intros Hu Hn. destruct (data src) as [|v l] eqn:E; [reflexivity|exfalso].
  unfold first_bin in Hn.
  assert (Hv : In v (data src)) by (rewrite E; left; reflexivity).
  inversion Hu as [|? ? Uv _]; subst.
  pose proof (find_none _ _ Hn v (proj2 (In_bins v) Uv)) as H. cbn beta in H.
  rewrite (hist_occupied src v Hv) in H. discriminate H.
Qed.

(** [cv2.equalizeHist] returns an image of the shape of its source, 8-bit
    if the source is. *)
Lemma cv2_equalizeHist_returns (src : ndarray Z) :
  exists t dst,
    cv2_equalizeHist src = (t, inr dst) /\
    shape dst = shape src /\
    (u8_image src -> u8_image dst).
Proof.
  unfold cv2_equalizeHist. destruct (first_bin src) as [i0|] eqn:F.
  - destruct (first_bin_In src i0 F) as [U0 _].
    cbn [bind tell]. destruct (hist src i0 =? Z.of_nat (size src)).
    + eexists _, _. split; [reflexivity|]. split; [reflexivity|].
      intros _. split.
      * unfold well_shaped, size, full. cbn [shape data]. apply repeat_length.
      * apply Forall_forall. intros v Hv. apply repeat_spec in Hv. subst v. exact U0.
    + eexists _, _. split; [reflexivity|]. split; [reflexivity|].
      intros [Hw _]. split.
      * unfold well_shaped, size, amap in *. cbn [shape data]. rewrite length_map. exact Hw.
      * apply Forall_forall. intros v Hv. cbn [amap data] in Hv.
        apply in_map_iff in Hv. destruct Hv as (u & <- & _).
        unfold lut. destruct (u <=? i0); [unfold is_u8; lia|apply saturate_u8_range].
  - eexists _, _. split; [reflexivity|]. split; [reflexivity|]. auto.
Qed.

(** X8.  The enhancer fails on an empty image and on nothing else, and
    works in the order of the source: with an empty water image it raises
    [ValueError] before any pass is made; with an empty fat image it
    raises [ValueError] after the eight passes of the water normalisation
    and before any equalisation; in every other case it returns two images
    of the shapes of its arguments, after both normalisations. *)
Theorem enhance_images_fails_on_empty_only (ib : Z) (w f : ndarray float) :
  match data w, data f with
  | [], _ => enhance_images ib w f = ([], inl ValueError)
  | _ :: _, [] =>
      enhance_images ib w f = (normalization_trace (size w), inl ValueError)
  | _ :: _, _ :: _ =>
      exists t ew ef,
        enhance_images ib w f =
          (normalization_trace (size w) ++ normalization_trace (size f) ++ t,
           inr (ew, ef)) /\
        shape ew = shape w /\ shape ef = shape f
  end.
Proof.
  destruct (data w) as [|x l] eqn:Ew.
  - unfold enhance_images. rewrite (min_max_normalization_empty ib float64 w Ew).
    reflexivity.
  - destruct (min_max_normalization_returns ib float64 w) as (nw & Hnw & Sw & _);
      [rewrite Ew; discriminate|].
    destruct (data f) as [|x' l'] eqn:Ef.
    + unfold enhance_images.
      rewrite Hnw, (min_max_normalization_empty ib float64 f Ef).
      cbn [bind]. rewrite app_nil_r. reflexivity.
    + destruct (min_max_normalization_returns ib float64 f) as (nf & Hnf & Sf & _);
        [rewrite Ef; discriminate|].
      destruct (cv2_equalizeHist_returns nw) as (t1 & ew & H1 & S1 & _).
      destruct (cv2_equalizeHist_returns nf) as (t2 & ef & H2 & S2 & _).
      exists (t1 ++ t2 ++ []), ew, ef. unfold enhance_images.
      rewrite Hnw, Hnf. cbn [bind]. rewrite H1, H2. cbn [bind ret].
      split; [reflexivity|]. split; congruence.
Qed.

(** X9.  Whatever float64 images it is given, an enhancement that returns
    gives two 8-bit images, each of the shape of its argument and with one
    sample per position. *)
Theorem enhance_images_result_is_8_bit
  (ib : Z) (w f : ndarray float) (ew ef : ndarray Z) :
  is_u8 ib -> well_shaped w -> well_shaped f ->
  outcome (enhance_images ib w f) = inr (ew, ef) ->
  shape ew = shape w /\ shape ef = shape f /\ u8_image ew /\ u8_image ef.
Proof.
  intros Hib Hw Hf Ho.
  destruct (enhance_images_stages ib w f ew ef Ho) as (nw & nf & Nw & Nf & Qw & Qf).
  destruct (min_max_normalization_u8_image ib float64 w nw Hib Hw Nw) as [Sw Uw].
  destruct (min_max_normalization_u8_image ib float64 f nf Hib Hf Nf) as [Sf Uf].
  destruct (cv2_equalizeHist_returns nw) as (t1 & ew' & H1 & S1 & U1).
  destruct (cv2_equalizeHist_returns nf) as (t2 & ef' & H2 & S2 & U2).
  rewrite H1 in Qw. rewrite H2 in Qf. cbn in Qw, Qf.
  inversion Qw; inversion Qf; subst ew' ef'.
  split; [congruence|]. split; [congruence|]. split; auto.
Qed.

Lemma enhance_images_result_is_8_bit_witness :
  let ew := mk_ndarray (2, 2)%nat [255; 170; 0; 85] in
  let ef := mk_ndarray (2, 2)%nat [255; 0; 85; 170] in
  shape ew = (2, 2)%nat /\ shape ef = (2, 2)%nat /\ u8_image ew /\ u8_image ef.
Proof.
  intros ew ef.
  apply (enhance_images_result_is_8_bit 0
           (amap half (mk_ndarray (2, 2)%nat [255; 150; 15; 110]))
           (amap half (mk_ndarray (2, 2)%nat [100; 0; 5; 70])) ew ef).
  - unfold is_u8. lia.
  - reflexivity.
  - reflexivity.
  - vm_compute. reflexivity.
Defined.

Lemma count_occ_constant (c : Z) l :
  Forall (eq c) l -> count_occ Z.eq_dec l c = List.length l.
Proof.
  induction 1 as [|x l Hx _ IH]; cbn; [reflexivity|].
  subst x. destruct (Z.eq_dec c c); [|congruence]. rewrite IH. reflexivity.
Qed.

(** [cv2.equalizeHist] leaves a single-valued 8-bit image as it is. *)
Lemma cv2_equalizeHist_constant (src : ndarray Z) (c : Z) :
  is_u8 c -> well_shaped src -> data src <> [] -> Forall (eq c) (data src) ->
  cv2_equalizeHist src = ([pass "cv2.equalizeHist" (size src)], inr src).
Proof.
  intros Uc Hw Hne Hc.
  assert (Hu : Forall is_u8 (data src)).
  { apply Forall_forall. intros v Hv. rewrite Forall_forall in Hc.
    rewrite <- (Hc v Hv). exact Uc. }
  unfold cv2_equalizeHist. destruct (first_bin src) as [i0|] eqn:F.
  - destruct (first_bin_In src i0 F) as [_ Hin].
    rewrite Forall_forall in Hc. pose proof (Hc i0 Hin) as E. subst i0.
    rewrite <- Forall_forall in Hc.
    unfold hist. rewrite (count_occ_constant c (data src) Hc), Hw, Z.eqb_refl.
    cbn. f_equal. f_equal. destruct src as [sh l]. unfold full, well_shaped, size in *.
    cbn [shape data] in *. f_equal. rewrite <- Hw.
    symmetry. rewrite <- (map_id l) at 1. apply (map_constant _ c); auto.
  - elim Hne. apply first_bin_none; assumption.
Qed.

(** X10.  A flat image stays flat: the enhancement of two non-empty
    float64 images, each with all its samples equal, returns two images
    filled with the byte that the cast stores for NaN (the zero range makes
    every normalised sample 0/0, and the equalisation of a single-valued
    image returns it as it is), whatever the two values were. *)
Theorem enhance_images_of_flat_images
  (ib : Z) (w f : ndarray float) (v v' : float) :
  is_u8 ib -> well_shaped w -> well_shaped f ->
  data w <> [] -> data f <> [] ->
  Forall (eq v) (data w) -> Forall (eq v') (data f) ->
  outcome (enhance_images ib w f) = inr (full (shape w) ib, full (shape f) ib).
Proof.
  intros Hib Hw Hf Nw Nf Cw Cf. unfold enhance_images.
  rewrite (constant_image_normalizes_to_invalid_byte ib float64 w v known_float64 Hw Nw Cw).
  rewrite (constant_image_normalizes_to_invalid_byte ib float64 f v' known_float64 Hf Nf Cf).
  cbn [bind].
  assert (H : forall (a : ndarray float),
             well_shaped a -> data a <> [] ->
             cv2_equalizeHist (full (shape a) ib) =
             ([pass "cv2.equalizeHist" (size a)], inr (full (shape a) ib))).
  { intros a Ha Na.
    apply (cv2_equalizeHist_constant (full (shape a) ib) ib Hib).
    - unfold well_shaped, size, full. cbn [shape data]. apply repeat_length.
    - unfold full. cbn [data]. fold (size a). rewrite <- Ha.
      destruct (data a); [congruence|]. discriminate.
    - apply Forall_forall. intros z Hz. apply repeat_spec in Hz. auto. }
  rewrite (H w Hw Nw), (H f Hf Nf). reflexivity.
Qed.

Lemma enhance_images_of_flat_images_witness :
  outcome (enhance_images 0 (full (2, 3)%nat 75%float) (full (2, 3)%nat 25%float)) =
  inr (full (2, 3)%nat 0, full (2, 3)%nat 0).
Proof.
  apply (enhance_images_of_flat_images 0 (full (2, 3)%nat 75%float)
           (full (2, 3)%nat 25%float) 75%float 25%float).
  - unfold is_u8. lia.
  - reflexivity.
  - reflexivity.
  - discriminate.
  - discriminate.
  - repeat constructor.
  - repeat constructor.
Defined.

(* ================================================================== *)
(** ** Equalisation stretches to the full range                        *)
(* ================================================================== *)

(** The rounding error of [rne_shr] is at most half a unit. *)
Lemma rne_shr_error n k : 0 <= k -> 2 * Z.abs (rne_shr n k * 2 ^ k - n) <= 2 ^ k.
Proof.
  intros Hk. unfold rne_shr.
  assert (HT : 0 < 2 ^ k) by (apply Z.pow_pos_nonneg; lia).
  pose proof (Z.div_mod n (2 ^ k) ltac:(lia)) as Hd.
  pose proof (Z.mod_pos_bound n (2 ^ k) HT) as Hr.
  set (q := n / 2 ^ k) in *. set (r := n mod 2 ^ k) in *. set (T := 2 ^ k) in *.
  destruct (Z.ltb_spec (2 * r) T); [lia|].
  destruct (Z.ltb_spec T (2 * r)); [lia|].
  destruct (Z.even q); lia.
Qed.

(** A number within half a unit of [c] units rounds to [c]. *)
Lemma rne_shr_nearest n k c :
  0 <= k -> 2 * Z.abs (n - c * 2 ^ k) < 2 ^ k -> rne_shr n k = c.
Proof.
  intros Hk H. unfold rne_shr.
  assert (HT : 0 < 2 ^ k) by (apply Z.pow_pos_nonneg; lia).
  set (T := 2 ^ k) in *.
  destruct (Z_le_gt_dec (c * T) n) as [Hle|Hgt].
  - assert (Hq : n / T = c)
      by (symmetry; apply (Z.div_unique_pos n T c (n - c * T)); lia).
    assert (Hr : n mod T = n - c * T)
      by (symmetry; apply (Z.mod_unique_pos n T c (n - c * T)); lia).
    rewrite Hq, Hr. destruct (Z.ltb_spec (2 * (n - c * T)) T); lia.
  - assert (Hq : n / T = c - 1)
      by (symmetry; apply (Z.div_unique_pos n T (c - 1) (n - c * T + T)); lia).
    assert (Hr : n mod T = n - c * T + T)
      by (symmetry; apply (Z.mod_unique_pos n T (c - 1) (n - c * T + T)); lia).
    rewrite Hq, Hr.
    destruct (Z.ltb_spec (2 * (n - c * T + T)) T); [lia|].
    destruct (Z.ltb_spec T (2 * (n - c * T + T))); lia.
Qed.

(** Rounding to [p] significant bits changes a number by at most one part
    in [2^p]. *)
Lemma round_sig_error p n : 1 <= p -> 0 <= n -> 2 ^ p * Z.abs (round_sig p n - n) <= n.
Proof.
  intros Hp Hn. unfold round_sig.
  destruct (Z.max_spec 0 (Z.log2 n + 1 - p)) as [[Hlt ->]|[Hge ->]].
  - set (k := Z.log2 n + 1 - p) in *.
    pose proof (rne_shr_error n k ltac:(lia)) as He.
    assert (Hpos : 0 < n).
    { destruct (Z.eq_dec n 0) as [E|E]; [|lia].
      assert (E0 : Z.log2 n = 0) by (rewrite E; reflexivity). unfold k in Hlt. lia. }
    pose proof (Z.log2_spec n Hpos) as [Hl _].
    assert (E1 : 2 ^ Z.log2 n = 2 ^ (p - 1) * 2 ^ k)
      by (rewrite <- Z.pow_add_r by lia; f_equal; lia).
    assert (E2 : 2 ^ p = 2 * 2 ^ (p - 1))
      by (rewrite <- Z.pow_succ_r by lia; f_equal; lia).
    assert (HA : 0 < 2 ^ (p - 1)) by (apply Z.pow_pos_nonneg; lia).
    set (A := 2 ^ (p - 1)) in *. set (T := 2 ^ k) in *.
    set (e := Z.abs (rne_shr n k * T - n)) in *.
    rewrite E2. assert (A * (2 * e) <= A * T) by (apply Z.mul_le_mono_nonneg_l; lia).
    lia.
  - unfold rne_shr. rewrite Z.pow_0_r, Z.div_1_r, Z.mod_1_r. cbn [Z.ltb Z.mul Z.compare].
    replace (n * 1 - n) with 0 by lia. cbn. lia.
Qed.

(** The last entry of the table that is used: the running sum has reached
    the number [N] of samples above the first bin, and [N] times the scale
    255 / N, both rounded to binary32, rounds to 255. *)
Lemma full_scale (N : Z) :
  1 <= N ->
  saturate_u8 (cvRound (f32_mul (f32_of_int N) (f32_div (f32_of_int 255) (f32_of_int N))))
  = 255.
Proof.
  intros HN.
  assert (HM : 1 <= round_sig 24 N).
  { pose proof (round_sig_lower 24 N ltac:(lia) ltac:(lia)) as H.
    assert (0 < 2 ^ Z.log2 N)       by (apply Z.pow_pos_nonneg; [lia|apply Z.log2_nonneg]).
    lia. }
  unfold f32_mul, f32_div, f32_of_int, cvRound. cbn [mant expo].
  change (round_sig 24 255) with 255. change (Z.log2 255) with 7.
  set (M := round_sig 24 N) in *.
  pose proof (Z.log2_spec M ltac:(lia)) as [HL1 HL2].
  pose proof (Z.log2_nonneg M) as HL0.
  set (L := Z.log2 M) in *.
  replace (Z.max 0 (28 + L - 7)) with (21 + L) by lia.
  set (s := 21 + L).
  replace (0 + (0 - 0 - s - 1)) with (- (s + 1)) by lia.
  destruct (Z.leb_spec 0 (- (s + 1))) as [Hbad|_]; [unfold s in Hbad; lia|].
  rewrite Z.opp_involutive.
  assert (Hs : 0 < 2 ^ s) by (apply Z.pow_pos_nonneg; unfold s; lia).
  assert (ET : 2 ^ (s + 1) = 2 * 2 ^ s) 
    by (rewrite <- Z.pow_succ_r by (unfold s; lia); f_equal; lia).
  assert (EL : 2 ^ s = 2 ^ 20 * 2 ^ Z.succ L)
    by (rewrite <- Z.pow_add_r by lia; f_equal; unfold s; lia).
  change (2 ^ 20) with 1048576 in EL.
  pose proof (Z.div_mod (255 * 2 ^ s) M ltac:(lia)) as Hd.
  pose proof (Z.mod_pos_bound (255 * 2 ^ s) M ltac:(lia)) as Hr.
  assert (Hq : 0 <= 255 * 2 ^ s / M) by (apply Z.div_pos; lia).
  set (q := 255 * 2 ^ s / M) in *. set (r := (255 * 2 ^ s) mod M) in *.
  set (x := 2 * q + (if r =? 0 then 0 else 1)).
  assert (Hx : 0 <= x) by (unfold x; destruct (r =? 0); lia).
  assert (HA : Z.abs (M * x - 255 * 2 ^ (s + 1)) <= M).
  { unfold x. rewrite ET. destruct (Z.eqb_spec r 0); lia. }
  pose proof (round_sig_error 24 x ltac:(lia) Hx) as HB.
  pose proof (round_sig_nonneg 24 x Hx) as HR.
  set (R := round_sig 24 x) in *.
  assert (HB' : 2 ^ 24 * Z.abs (M * R - M * x) <= M * x).
  { replace (M * R - M * x) with (M * (R - x)) by lia.
    rewrite Z.abs_mul, (Z.abs_eq M) by lia.
    replace (2 ^ 24 * (M * Z.abs (R - x))) with (M * (2 ^ 24 * Z.abs (R - x))) by lia.
    apply Z.mul_le_mono_nonneg_l; lia. }
  assert (HMR : 0 <= M * R) by (apply Z.mul_nonneg_nonneg; lia).
  pose proof (round_sig_error 24 (M * R) ltac:(lia) HMR) as HC.
  set (P := round_sig 24 (M * R)) in *.
  change (2 ^ 24) with 16777216 in *.
  assert (HP : rne_shr P (s + 1) = 255).
  { apply rne_shr_nearest; [unfold s; lia|].
    rewrite ET in *. set (u := M * x) in *. set (v := M * R) in *.
    set (S := 2 ^ s) in *. set (S' := 2 ^ Z.succ L) in *. lia. }
  rewrite HP. reflexivity.
Qed.

Lemma fold_add_shift l a : fold_left Z.add l a = a + fold_left Z.add l 0.
Proof.
  revert a. induction l as [|x l IH]; intros a; cbn; [lia|].
  rewrite (IH (a + x)), (IH x). lia.
Qed.

Lemma sum_pointwise (f g : Z -> Z) S :
  fold_left Z.add (map (fun j => f j + g j) S) 0 =
  fold_left Z.add (map f S) 0 + fold_left Z.add (map g S) 0.
Proof.
  induction S as [|j S IH]; cbn; [reflexivity|].
  rewrite (fold_add_shift _ (f j + g j)), (fold_add_shift _ (f j)),
    (fold_add_shift _ (g j)), IH. lia.
Qed.

Lemma sum_zero (f : Z -> Z) S :
  (forall j, In j S -> f j = 0) -> fold_left Z.add (map f S) 0 = 0.
Proof.
  induction S as [|j S IH]; intros H; cbn; [reflexivity|].
  rewrite fold_add_shift.
  rewrite IH by (intros j' Hj'; apply H; right; exact Hj').
  rewrite (H j) by (left; reflexivity). reflexivity.
Qed.

(** A sample is counted in exactly one bin. *)
Lemma sum_indicator (v : Z) S :
  NoDup S -> In v S ->
  fold_left Z.add (map (fun j => if Z.eq_dec v j then 1 else 0) S) 0 = 1.
Proof.
  induction 1 as [|j S Hj HS IH]; intros Hin; [destruct Hin|].
  cbn [map fold_left]. rewrite fold_add_shift.
  destruct (Z.eq_dec v j) as [E|E].
  - subst j. rewrite sum_zero; [reflexivity|].
    intros j Hj'. destruct (Z.eq_dec v j); [subst; contradiction|reflexivity].
  - destruct Hin as [Hin|Hin]; [congruence|]. rewrite (IH Hin). reflexivity.
Qed.

Lemma NoDup_bins : NoDup bins.
Proof.
  unfold bins. generalize (seq_NoDup 256 0). generalize (seq 0 256).
  induction 1 as [|x l Hx Hl IH]; cbn; constructor; [|exact IH].
  intros Hin. apply in_map_iff in Hin. destruct Hin as (y & Hy & Hin).
  apply Nat2Z.inj in Hy. subst y. contradiction.
Qed.

(** When the loop reaches the largest sample, the running sum holds every
    sample but those of the first bin. *)
Lemma cumulated_all (src : ndarray Z) (i0 mx : Z) :
  0 <= i0 -> mx <= 255 ->
  (forall v, In v (data src) -> i0 <= v <= mx) ->
  cumulated src i0 mx = Z.of_nat (List.length (data src)) - hist src i0.
Proof.
  intros H0 H255. unfold cumulated, hist.
  set (S := filter (fun j => (i0 <? j) && (j <=? mx)) bins).
  assert (HS : NoDup S) by (apply NoDup_filter, NoDup_bins).
  induction (data src) as [|v l IH]; intros Hb.
  - cbn [List.length]. rewrite sum_zero; reflexivity.
  - rewrite (map_ext _ (fun j => (if Z.eq_dec v j then 1 else 0)
                                  + Z.of_nat (count_occ Z.eq_dec l j))).
    2:{ intros j. cbn [count_occ]. destruct (Z.eq_dec v j); lia. }
    rewrite sum_pointwise, IH by (intros u Hu; apply Hb; right; exact Hu).
    pose proof (Hb v (or_introl eq_refl)) as Hv.
    cbn [count_occ List.length]. destruct (Z.eq_dec v i0) as [E|E].
    + rewrite sum_zero; [lia|].
      intros j Hj. destruct (Z.eq_dec v j) as [E'|]; [|reflexivity].
      subst j. unfold S in Hj. apply filter_In in Hj. destruct Hj as [_ Hj].
      apply andb_true_iff in Hj. destruct Hj as [Hj _]. apply Z.ltb_lt in Hj. lia.
    + rewrite sum_indicator; [lia|exact HS|].
      unfold S. apply filter_In. split.
      * apply In_bins. unfold is_u8. lia.
      * apply andb_true_iff. split; [apply Z.ltb_lt|apply Z.leb_le]; lia.
Qed.

Lemma count_occ_all (c : Z) l :
  count_occ Z.eq_dec l c = List.length l -> Forall (eq c) l.
Proof.
  induction l as [|x l IH]; cbn; [constructor|].
  destruct (Z.eq_dec x c) as [E|E]; intros H.
  - constructor; [congruence|]. apply IH. lia.
  - pose proof (count_occ_le_length l c). lia.
Qed.

(** Equalisation of an 8-bit image that is not single-valued: every
    position holding the smallest sample becomes 0 and every position
    holding the largest becomes 255. *)
Lemma cv2_equalizeHist_extremes (src : ndarray Z) (mn mx : Z) :
  u8_image src ->
  outcome (np_min uint8 src) = inr mn -> outcome (np_max uint8 src) = inr mx -> mn < mx ->
  exists dst,
    cv2_equalizeHist src = ([pass "cv2.equalizeHist" (size src)], inr dst) /\
    (forall r c, pixel src r c = Some mn -> pixel dst r c = Some 0) /\
    (forall r c, pixel src r c = Some mx -> pixel dst r c = Some 255).
Proof.
  intros [Hw Hu] Hmn Hmx Hlt.
  destruct (np_min_uint 8 src mn Hmn) as [Imn Lmn].
  destruct (np_max_uint 8 src mx Hmx) as [Imx Lmx].
  pose proof Hu as Hu'. rewrite Forall_forall in Hu'.
  unfold cv2_equalizeHist. destruct (first_bin src) as [i0|] eqn:F.
  2:{ rewrite (first_bin_none src Hu F) in Imn. destruct Imn. }
  destruct (first_bin_In src i0 F) as [U0 I0].
  assert (E0 : i0 = mn).
  { pose proof (first_bin_least src i0 mn F Imn (Hu' mn Imn)).
    pose proof (Lmn i0 I0). lia. }
  subst i0.
  pose proof (Hu' mx Imx) as Umx. unfold is_u8 in U0, Umx.
  destruct (Z.eqb_spec (hist src mn) (Z.of_nat (size src))) as [Hfull|Hpart].
  - exfalso. unfold hist in Hfull. rewrite <- Hw in Hfull.
    apply Nat2Z.inj, count_occ_all in Hfull. rewrite Forall_forall in Hfull.
    specialize (Hfull mx Imx). lia.
  - cbn [bind tell ret app fst snd].
    exists (amap (lut src mn) src). split; [reflexivity|]. split.
    + intros r c Hv. rewrite pixel_amap, Hv. cbn [option_map]. unfold lut.
      rewrite Z.leb_refl. reflexivity.
    + intros r c Hv. rewrite pixel_amap, Hv. cbn [option_map]. f_equal. unfold lut.
      destruct (Z.leb_spec mx mn); [lia|].
      unfold hist_scale.
      rewrite (cumulated_all src mn mx) by (try lia; intros v Hv'; split; auto).
      rewrite Hw. apply full_scale.
      pose proof (hist_le_size src mn Hw). lia.
Qed.

(** X11.  The enhancer stretches every image that is not flat to the full
    8-bit range.  For the halved image of a non-constant 8-bit image [s]
    (what the separator hands over), the enhanced image is 0 at every
    position where [s] has its smallest sample and 255 at every position
    where it has its largest; the same holds of the second image. *)
Theorem enhance_images_full_contrast (ib : Z) (s d : ndarray Z) :
  u8_image s -> u8_image d -> ~ constant_image s -> ~ constant_image d ->
  exists mn mx mn' mx' ew ef,
    outcome (np_min uint8 s) = inr mn /\ outcome (np_max uint8 s) = inr mx /\
    outcome (np_min uint8 d) = inr mn' /\ outcome (np_max uint8 d) = inr mx' /\
    outcome (enhance_images ib (amap half s) (amap half d)) = inr (ew, ef) /\
    (forall r c, pixel s r c = Some mn -> pixel ew r c = Some 0) /\
    (forall r c, pixel s r c = Some mx -> pixel ew r c = Some 255) /\
    (forall r c, pixel d r c = Some mn' -> pixel ef r c = Some 0) /\
    (forall r c, pixel d r c = Some mx' -> pixel ef r c = Some 255).
Proof.
  intros Hs Hd Ns Nd.
  destruct (nonconstant_extremes s Ns) as (mn & mx & Hmn & Hmx & Hlt).
  destruct (nonconstant_extremes d Nd) as (mn' & mx' & Hmn' & Hmx' & Hlt').
  destruct (normalized_u8_extremes s mn mx Hs Hmn Hmx Hlt) as (Uy & Y0 & Y1).
  destruct (normalized_u8_extremes d mn' mx' Hd Hmn' Hmx' Hlt') as (Uy' & Y0' & Y1').
  cbv zeta in Uy, Y0, Y1, Uy', Y0', Y1'.
  destruct (cv2_equalizeHist_extremes _ 0 255 Uy Y0 Y1 ltac:(lia)) as (ew & Ew & Lw & Bw).
  destruct (cv2_equalizeHist_extremes _ 0 255 Uy' Y0' Y1' ltac:(lia)) as (ef & Ef & Lf & Bf).
  exists mn, mx, mn', mx', ew, ef.
  split; [exact Hmn|]. split; [exact Hmx|]. split; [exact Hmn'|]. split; [exact Hmx'|].
  split.
  - unfold enhance_images.
    rewrite (min_max_normalization_halved ib s (proj2 Hs)).
    rewrite (min_max_normalization_halved ib d (proj2 Hd)).
    rewrite (min_max_normalization_u8 ib s mn mx (proj2 Hs) Hmn Hmx Hlt).
    rewrite (min_max_normalization_u8 ib d mn' mx' (proj2 Hd) Hmn' Hmx' Hlt').
    cbn [bind]. rewrite Ew, Ef. reflexivity.
  - split; [|split; [|split]]; intros r c Hv.
    + apply Lw. rewrite pixel_amap, Hv. cbn [option_map]. f_equal.
      rewrite Z.sub_diag, Z.mul_0_r. apply Z.div_0_l. lia.
    + apply Bw. rewrite pixel_amap, Hv. cbn [option_map]. f_equal. apply Z.div_mul. lia.
    + apply Lf. rewrite pixel_amap, Hv. cbn [option_map]. f_equal.
      rewrite Z.sub_diag, Z.mul_0_r. apply Z.div_0_l. lia.
    + apply Bf. rewrite pixel_amap, Hv. cbn [option_map]. f_equal. apply Z.div_mul. lia.
Qed.

Lemma enhance_images_full_contrast_witness :
  let s := mk_ndarray (2, 2)%nat [255; 150; 15; 110] in
  let d := mk_ndarray (2, 2)%nat [100; 0; 5; 70] in
  exists mn mx mn' mx' ew ef,
    outcome (np_min uint8 s) = inr mn /\ outcome (np_max uint8 s) = inr mx /\
    outcome (np_min uint8 d) = inr mn' /\ outcome (np_max uint8 d) = inr mx' /\
    outcome (enhance_images 0 (amap half s) (amap half d)) = inr (ew, ef) /\
    (forall r c, pixel s r c = Some mn -> pixel ew r c = Some 0) /\
    (forall r c, pixel s r c = Some mx -> pixel ew r c = Some 255) /\
    (forall r c, pixel d r c = Some mn' -> pixel ef r c = Some 0) /\
    (forall r c, pixel d r c = Some mx' -> pixel ef r c = Some 255).
Proof.
  intros s d. apply (enhance_images_full_contrast 0 s d).
  - apply u8_image_intro; reflexivity.
  - apply u8_image_intro; reflexivity.
  - apply (nonconstant_intro _ 255 150); cbn; auto. lia.
  - apply (nonconstant_intro _ 100 0); cbn; auto. lia.
Defined.

(* ================================================================== *)
(** ** The enhancer after the separator                                *)
(* ================================================================== *)

(** X12.  The halving of the separator has no effect on the enhancement:
    enhancing the water and fat images gives exactly what normalising and
    equalising the 8-bit saturated sum and the 8-bit saturated difference
    themselves gives, trace included. *)
Theorem enhance_images_after_dixon (ib : Z) (a b s d : ndarray Z) w f :
  shape a = shape b ->
  outcome (dixon_algorithm a b) = inr (w, f) ->
  outcome (cv2_add a b) = inr (Some s) -> outcome (cv2_subtract a b) = inr (Some d) ->
  enhance_images ib w f =
  (ns <- min_max_normalization ib uint8 s ;;
   nd <- min_max_normalization ib uint8 d ;;
   es <- cv2_equalizeHist ns ;;
   ed <- cv2_equalizeHist nd ;;
   ret (es, ed)).
Proof.
  intros Hs Ho Hadd Hsub.
  destruct (min_max_normalization_after_dixon ib a b w f Hs Ho) as [Ew Ef].
  unfold cv2_add in Hadd. unfold cv2_subtract in Hsub.
  rewrite (proj2 (shape_eqb_eq _ _) Hs) in Hadd, Hsub.
  destruct (data a) as [|x t]; [discriminate Hadd|].
  cbn in Hadd, Hsub. inversion Hadd; inversion Hsub; subst s d.
  unfold enhance_images. rewrite Ew, Ef. reflexivity.
Qed.

Lemma enhance_images_after_dixon_witness :
  let a := mk_ndarray (1, 2)%nat [200; 10] in
  let b := mk_ndarray (1, 2)%nat [100; 30] in
  enhance_images 0 (mk_ndarray (1, 2)%nat [127.5%float; 20%float])
                   (mk_ndarray (1, 2)%nat [50%float; 0%float]) =
  (ns <- min_max_normalization 0 uint8 (mk_ndarray (1, 2)%nat [255; 40]) ;;
   nd <- min_max_normalization 0 uint8 (mk_ndarray (1, 2)%nat [100; 0]) ;;
   es <- cv2_equalizeHist ns ;;
   ed <- cv2_equalizeHist nd ;;
   ret (es, ed)).
Proof.
  intros a b.
  apply (enhance_images_after_dixon 0 a b).
  - reflexivity.
  - vm_compute. reflexivity.
  - vm_compute. reflexivity.
  - vm_compute. reflexivity.
Defined.

(* ================================================================== *)
(** ** The display                                                     *)
(* ================================================================== *)

Ltac refused :=
  cbn; split; [reflexivity|intros n H; cbn in H; intuition discriminate].

(** X13.  [display_images] shows its figure exactly when each of its six
    images has samples: then the six colour conversions are made, the
    figure of six panels is shown once and the function returns; an image
    without samples makes the colour conversion raise [cv2.error], and no
    figure is shown. *)
Theorem display_images_shows_six_panels (i1 i2 i3 i4 i5 i6 : image) :
  if forallb has_samples [i1; i2; i3; i4; i5; i6]
  then display_images i1 i2 i3 i4 i5 i6 =
       (display_trace [i1; i2; i3; i4; i5; i6], inr tt)
  else outcome (display_images i1 i2 i3 i4 i5 i6) = inl cv2_error /\
       nothing_shown (trace (display_images i1 i2 i3 i4 i5 i6)).
Proof.
  unfold display_images, cv2_cvtColor_BGR2RGB, nothing_shown, display_trace.
  cbn [forallb map].
  destruct i1 as [a1|a1]; cbn [has_samples samples]; (destruct (data a1); [refused|]);
  (destruct i2 as [a2|a2]; cbn [has_samples samples]; (destruct (data a2); [refused|]));
  (destruct i3 as [a3|a3]; cbn [has_samples samples]; (destruct (data a3); [refused|]));
  (destruct i4 as [a4|a4]; cbn [has_samples samples]; (destruct (data a4); [refused|]));
  (destruct i5 as [a5|a5]; cbn [has_samples samples]; (destruct (data a5); [refused|]));
  (destruct i6 as [a6|a6]; cbn [has_samples samples]; (destruct (data a6); [refused|]));
  reflexivity.
Qed.

(* ================================================================== *)
(** ** The whole program                                               *)
(* ================================================================== *)

(** Once both files are read, [main] is the pipeline on their arrays. *)
Lemma main_loaded (ib : Z) (dcmread : string -> exn + pixel_array)
      (blur : ndarray Z -> M (ndarray Z))
      (display : ndarray Z -> ndarray Z -> ndarray Z -> ndarray Z ->
                 ndarray Z -> ndarray Z -> M unit)
      {A B} (Da : dtype A) (a : ndarray A) (Db : dtype B) (b : ndarray B) :
  dcmread in_phase_path = inr (stored Da a) ->
  dcmread out_phase_path = inr (stored Db b) ->
  main ib dcmread blur display =
  (i <- min_max_normalization ib Da a ;;
   o <- min_max_normalization ib Db b ;;
   gi <- blur i ;;
   go <- blur o ;;
   wf <- dixon_algorithm i o ;;
   gwf <- dixon_algorithm gi go ;;
   ewf <- enhance_images ib (fst wf) (snd wf) ;;
   egwf <- enhance_images ib (fst gwf) (snd gwf) ;;
   display i o (fst ewf) (snd ewf) (fst egwf) (snd egwf)).
Proof.
  intros Ha Hb. unfold in_phase_path, out_phase_path in *.
  unfold main, read_dicom_files. rewrite Ha, Hb, bind_ret_l. reflexivity.
Qed.

(** X14.  [main] catches nothing itself: when reading one of its two files
    raises an exception other than the two the loader catches, the program
    ends with that exception, with nothing printed, processed or shown. *)
Theorem main_lets_other_exceptions_escape
  (ib : Z) (dcmread : string -> exn + pixel_array)
  (blur : ndarray Z -> M (ndarray Z))
  (display : ndarray Z -> ndarray Z -> ndarray Z -> ndarray Z ->
             ndarray Z -> ndarray Z -> M unit) (e : exn) :
  caught e = false ->
  dcmread in_phase_path = inl e \/
  (exists a, dcmread in_phase_path = inr a /\ dcmread out_phase_path = inl e) ->
  main ib dcmread blur display = ([], inl e).
Proof.
  intros C H. unfold in_phase_path, out_phase_path in *.
  unfold main, read_dicom_files.
  destruct H as [H|(a & Ha & H)].
  - rewrite H, C. reflexivity.
  - rewrite Ha, H, C. reflexivity.
Qed.

Lemma main_lets_other_exceptions_escape_witness :
  main 0 (fun _ => inl (OtherError "PermissionError")) (fun a => ret a)
       display_arrays = ([], inl (OtherError "PermissionError")).
Proof.
  apply (main_lets_other_exceptions_escape 0 (fun _ => inl (OtherError "PermissionError"))
           (fun a => ret a) display_arrays (OtherError "PermissionError")).
  - reflexivity.
  - left. reflexivity.
Defined.

(** X15.  A file whose pixel array has no samples stops [main] in the
    normalisation: with an empty in-phase array the program ends with
    [ValueError] before any pass; with an empty out-phase array it ends
    with [ValueError] after the eight passes over the in-phase array.
    Nothing is blurred, separated or shown. *)
Theorem main_fails_on_empty_pixel_array
  (ib : Z) (dcmread : string -> exn + pixel_array)
  (blur : ndarray Z -> M (ndarray Z))
  (display : ndarray Z -> ndarray Z -> ndarray Z -> ndarray Z ->
             ndarray Z -> ndarray Z -> M unit)
  {A B} (Da : dtype A) (a : ndarray A) (Db : dtype B) (b : ndarray B) :
  dcmread in_phase_path = inr (stored Da a) ->
  dcmread out_phase_path = inr (stored Db b) ->
  (data a = [] -> main ib dcmread blur display = ([], inl ValueError)) /\
  (data a <> [] -> data b = [] ->
   main ib dcmread blur display = (normalization_trace (size a), inl ValueError)).
Proof.
  intros Ha Hb. rewrite (main_loaded ib dcmread blur display Da a Db b Ha Hb). split.
  - intros E. rewrite (min_max_normalization_empty ib Da a E). reflexivity.
  - intros Na E.
    destruct (min_max_normalization_returns ib Da a Na) as (i & Hi & _).
    rewrite Hi, (min_max_normalization_empty ib Db b E).
    cbn [bind]. rewrite app_nil_r. reflexivity.
Qed.

Lemma main_fails_on_empty_pixel_array_witness :
  main 0 (fun _ => inr (stored uint16 (mk_ndarray (0, 0)%nat []))) (fun a => ret a)
       display_arrays = ([], inl ValueError).
Proof.
  apply (proj1 (main_fails_on_empty_pixel_array 0
                  (fun _ => inr (stored uint16 (mk_ndarray (0, 0)%nat [])))
                  (fun a => ret a) display_arrays
                  uint16 (mk_ndarray (0, 0)%nat []) uint16 (mk_ndarray (0, 0)%nat [])
                  eq_refl eq_refl)).
  reflexivity.
Defined.








Lemma bind_value {A B} (x : A) (k : A -> M B) : bind ([], inr x) k = k x.
Proof. exact (bind_ret_l x k). Qed.



(* ================================================================== *)
(** ** NaN samples                                                     *)
(* ================================================================== *)

Lemma is_nan_true (x : float) : PrimFloat.is_nan x = true -> Prim2SF x = S754_nan.
Proof.
  unfold PrimFloat.is_nan. rewrite FloatAxioms.eqb_spec.
  destruct (Prim2SF x) as [s|s| |s m e]; try reflexivity; unfold SFeqb, SFcompare.
  - discriminate.
  - destruct s; discriminate.
  - destruct s; rewrite Z.compare_refl, Pos.compare_cont_refl; discriminate.
Qed.

Lemma leb_nan_r (x y : float) : Prim2SF y = S754_nan -> PrimFloat.leb x y = false.
Proof.
  intros H. rewrite FloatAxioms.leb_spec, H. destruct (Prim2SF x); reflexivity.
Qed.

(** [np.min] of a float64 array holding a NaN is NaN. *)
Lemma fold_minimum_nan t x :
  Prim2SF x = S754_nan \/ (exists v, In v t /\ Prim2SF v = S754_nan) ->
  Prim2SF (fold_left (minimum float64) t x) = S754_nan.
Proof.
  revert x. induction t as [|y t IH]; intros x H; cbn [fold_left].
  - destruct H as [H|(v & [] & _)]. exact H.
  - apply IH. unfold minimum. cbn [float64 dt_le dt_isnan].
    destruct H as [H|(v & [Hv|Hv] & Nv)].
    + left. rewrite (is_nan_Prim2SF x H), orb_true_r. exact H.
    + subst v. left. rewrite (leb_nan_r x y Nv). cbn [orb].
      destruct (PrimFloat.is_nan x) eqn:Nx; [apply is_nan_true, Nx|exact Nv].
    + right. exists v. auto.
Qed.

Lemma quotient_nan (v mn d : float) :
  Prim2SF mn = S754_nan ->
  Prim2SF (PrimFloat.div (PrimFloat.sub v mn) d) = S754_nan.
Proof.
  intros H. rewrite FloatAxioms.div_spec, FloatAxioms.sub_spec, H.
  destruct (Prim2SF v); destruct (Prim2SF d); reflexivity.
Qed.

(** X19.  One NaN blanks the whole image: when a float64 array holds a NaN
    sample, its minimum is NaN, so every normalised sample is NaN, and the
    normalisation returns the array filled with the byte that the cast
    stores for NaN, whatever the other samples are. *)
Theorem min_max_normalization_nan_spreads (ib : Z) (a : ndarray float) (v : float) :
  well_shaped a -> In v (data a) -> Prim2SF v = S754_nan ->
  min_max_normalization ib float64 a =
  (normalization_trace (size a), inr (full (shape a) ib)).
Proof.
  intros Hw Hin Hv.
  destruct (data a) as [|x t] eqn:E; [destruct Hin|].
  rewrite (min_max_normalization_eq ib float64 a x t E). cbv zeta.
  assert (Hmn : Prim2SF (fold_left (minimum float64) t x) = S754_nan).
  { apply fold_minimum_nan. destruct Hin as [->|Hin]; [left; exact Hv|].
    right. exists v. auto. }
  set (mn := fold_left (minimum float64) t x) in *.
  set (mx := fold_left (maximum float64) t x).
  f_equal. f_equal. unfold amap, full. f_equal.
  unfold well_shaped, size in Hw. rewrite <- Hw, E.
  cbn [shape data].
  transitivity (map (fun _ : float => ib) (x :: t)); [|apply map_const].
  apply map_ext. intros u. cbn [float64 dt_float dt_sub].
  pose proof (quotient_nan u mn (PrimFloat.sub mx mn) Hmn) as Hq.
  rewrite interp1_nan by (apply is_nan_Prim2SF, Hq).
  apply astype_uint8_nan, Hq.
Qed.

Lemma min_max_normalization_nan_spreads_witness :
  min_max_normalization 0 float64 (mk_ndarray (1, 3)%nat [10%float; nan; 30%float]) =
  (normalization_trace 3, inr (full (1, 3)%nat 0)).
Proof.
  apply (min_max_normalization_nan_spreads 0
           (mk_ndarray (1, 3)%nat [10%float; nan; 30%float]) nan).
  - reflexivity.
  - cbn. auto.
  - reflexivity.
Defined.
